(** * Wagering program: session state machine and settlement

    A shallow embedding of the Rust code quoted in the audit report
    (state.rs [add_kill], [add_spawns], [check_all_filled]; join_user.rs;
    distribute_winnings.rs) together with the properties the specification
    states about it.

    Conventions.
    - Unsigned machine integers are [Z] values inside their range; `+=`,
      `-=` and `*` on them abort the program when they leave the range
      (the report: "integer underflow ... causing program panic").
    - A method taking `&mut self` is a state transformer that returns its
      result together with the session as it stands when the method
      returns, also when it returns an error: [Mut S A := S -> Result A * S].
    - Fixed-size arrays are lists read with [!!] and written with
      [<[i:=x]>]; an index outside the array aborts the program. *)

From Stdlib Require Import ZArith Lia String.
From stdpp Require Import base numbers list gmap.

Local Open Scope Z_scope.

(** ** Errors and results *)

Inductive WagerError :=
| InvalidPlayerIndex
| KillCountOverflow
| InvalidTeam
| PlayerHasNoSpawns
| InsufficientVaultBalance
| GameNotComplete
| ArithmeticError
| PlayerAlreadyJoined
| InvalidTeamSelection
| InvalidGameState
| TeamIsFull
| InvalidPlayer
| InsufficientUserBalance.

(** What an instruction can end with besides success: an error of the
    program, a refusal of the ledger, or an abort on an arithmetic or
    bounds check. *)
Inductive Failure :=
| Wager (e : WagerError)
| InsufficientFunds
| Panic.

Inductive Result (A : Type) :=
| Ok (a : A)
| Err (f : Failure).
Arguments Ok {A} a.
Arguments Err {A} f.

Definition is_ok {A} (r : Result A) : bool :=
  match r with Ok _ => true | Err _ => false end.

(** ** The `&mut self` monad: the state survives an error *)

Definition Mut (S A : Type) : Type := S -> Result A * S.

Definition ret {S A} (a : A) : Mut S A := fun s => (Ok a, s).
Definition fail {S A} (e : WagerError) : Mut S A := fun s => (Err (Wager e), s).
Definition raise {S A} (f : Failure) : Mut S A := fun s => (Err f, s).
Definition panic {S A} : Mut S A := fun s => (Err Panic, s).
Definition bind {S A B} (m : Mut S A) (k : A -> Mut S B) : Mut S B :=
  fun s => match m s with
           | (Ok a, s') => k a s'
           | (Err f, s') => (Err f, s')
           end.
Definition get {S} : Mut S S := fun s => (Ok s, s).
Definition put {S} (s : S) : Mut S unit := fun _ => (Ok tt, s).

Global Instance Mut_ret {S} : MRet (Mut S) := λ A, ret.
Global Instance Mut_bind {S} : MBind (Mut S) := λ A B k m, bind m k.

(** `require!(cond, err)` *)
Definition require {S} (cond : bool) (e : WagerError) : Mut S unit :=
  if cond then ret tt else fail e.

(** `opt?` on an array read: an index outside the array aborts. *)
Definition index {S A} (o : option A) : Mut S A :=
  match o with Some a => ret a | None => panic end.

(** ** Machine integers *)

Definition u16_MAX : Z := 65535.
Definition u32_MAX : Z := 4294967295.
Definition u64_MAX : Z := 18446744073709551615.

(** Overflow-checked `a + b` and `a - b` at a given upper bound. *)
Definition add_checked {S} (max a b : Z) : Mut S Z :=
  if a + b <=? max then ret (a + b) else panic.
Definition sub_checked {S} (a b : Z) : Mut S Z :=
  if 0 <=? a - b then ret (a - b) else panic.
Definition mul_checked {S} (max a b : Z) : Mut S Z :=
  if a * b <=? max then ret (a * b) else panic.

(** ** Data model (state.rs) *)

Definition Pubkey : Type := Z.
(** `Pubkey::default()`, the content of an empty slot. *)
Definition Pubkey_default : Pubkey := 0.

(** The third state is `completed` in the program's interface
    (edge-cases.ts) and is spelled `GameStatus::Complete` in A.2. *)
Inductive GameStatus :=
| WaitingForPlayers
| InProgress
| Completed
| Distributed.

Inductive GameMode :=
| WinnerTakesAllOneVsOne
| WinnerTakesAllThreeVsThree
| WinnerTakesAllFiveVsFive
| PayToSpawnOneVsOne
| PayToSpawnThreeVsThree
| PayToSpawnFiveVsFive.

(** Modelled from the spec: `MAX_PLAYERS_PER_TEAM` is used by [add_kill]
    and not declared in the quoted code; the largest mode is 5v5. *)
Definition MAX_PLAYERS_PER_TEAM : nat := 5.

(** Modelled from the spec: `GameMode::players_per_team` (section 3,
    "fixes players_per_team"). *)
Definition players_per_team (m : GameMode) : nat :=
  match m with
  | WinnerTakesAllOneVsOne | PayToSpawnOneVsOne => 1
  | WinnerTakesAllThreeVsThree | PayToSpawnThreeVsThree => 3
  | WinnerTakesAllFiveVsFive | PayToSpawnFiveVsFive => 5
  end%nat.

Definition is_pay_to_spawn (m : GameMode) : bool :=
  match m with
  | PayToSpawnOneVsOne | PayToSpawnThreeVsThree | PayToSpawnFiveVsFive => true
  | _ => false
  end.

Record Team := mkTeam {
  players : list Pubkey;        (* [Pubkey; 5] *)
  player_kills : list Z;        (* [u32; 5] *)
  player_spawns : list Z        (* [u16; 5] *)
}.

Record GameSession := mkGameSession {
  session_id : string;
  authority : Pubkey;
  session_bet : Z;              (* u64 *)
  game_mode : GameMode;
  team_a : Team;
  team_b : Team;
  status : GameStatus;
  created_at : Z;
  expires_at : Z;
  spawns_per_purchase : Z       (* u16 *)
}.

Definition set_players (t : Team) (l : list Pubkey) : Team :=
  mkTeam l (player_kills t) (player_spawns t).
Definition set_player_kills (t : Team) (l : list Z) : Team :=
  mkTeam (players t) l (player_spawns t).
Definition set_player_spawns (t : Team) (l : list Z) : Team :=
  mkTeam (players t) (player_kills t) l.

Definition set_team_a (g : GameSession) (t : Team) : GameSession :=
  mkGameSession (session_id g) (authority g) (session_bet g) (game_mode g)
    t (team_b g) (status g) (created_at g) (expires_at g)
    (spawns_per_purchase g).
Definition set_team_b (g : GameSession) (t : Team) : GameSession :=
  mkGameSession (session_id g) (authority g) (session_bet g) (game_mode g)
    (team_a g) t (status g) (created_at g) (expires_at g)
    (spawns_per_purchase g).
Definition set_status (g : GameSession) (st : GameStatus) : GameSession :=
  mkGameSession (session_id g) (authority g) (session_bet g) (game_mode g)
    (team_a g) (team_b g) st (created_at g) (expires_at g)
    (spawns_per_purchase g).

Global Instance GameStatus_eq_dec : EqDecision GameStatus.
Proof. solve_decision. Defined.
Global Instance WagerError_eq_dec : EqDecision WagerError.
Proof. solve_decision. Defined.

(** The team an instruction argument `team: u8` names. *)
Definition team_of (g : GameSession) (team : nat) : option Team :=
  match team with
  | 0%nat => Some (team_a g)
  | 1%nat => Some (team_b g)
  | _ => None
  end.

Definition kills_of (g : GameSession) (team i : nat) : option Z :=
  t ← team_of g team; player_kills t !! i.
Definition spawns_of (g : GameSession) (team i : nat) : option Z :=
  t ← team_of g team; player_spawns t !! i.

(** ** Combat ledger: [add_kill] (Appendix A.1) *)

(** `self.team_X.player_kills[i] += 1` behind its `require!`. *)
Definition record_kill_a (i : nat) : Mut GameSession unit :=
  g ← get;
  k ← index (player_kills (team_a g) !! i);
  require (k <? u32_MAX) KillCountOverflow;;
  k' ← add_checked u32_MAX k 1;
  put (set_team_a g (set_player_kills (team_a g) (<[i:=k']> (player_kills (team_a g))))).

Definition record_kill_b (i : nat) : Mut GameSession unit :=
  g ← get;
  k ← index (player_kills (team_b g) !! i);
  require (k <? u32_MAX) KillCountOverflow;;
  k' ← add_checked u32_MAX k 1;
  put (set_team_b g (set_player_kills (team_b g) (<[i:=k']> (player_kills (team_b g))))).

(** `self.team_X.player_spawns[i] -= 1` behind its `require!`. *)
Definition take_spawn_a (i : nat) : Mut GameSession unit :=
  g ← get;
  n ← index (player_spawns (team_a g) !! i);
  require (0 <? n) PlayerHasNoSpawns;;
  n' ← sub_checked n 1;
  put (set_team_a g (set_player_spawns (team_a g) (<[i:=n']> (player_spawns (team_a g))))).

Definition take_spawn_b (i : nat) : Mut GameSession unit :=
  g ← get;
  n ← index (player_spawns (team_b g) !! i);
  require (0 <? n) PlayerHasNoSpawns;;
  n' ← sub_checked n 1;
  put (set_team_b g (set_player_spawns (team_b g) (<[i:=n']> (player_spawns (team_b g))))).

Definition add_kill (killer_team killer_player_index
                     victim_team victim_player_index : nat)
  : Mut GameSession unit :=
  (* Validate indices *)
  require (killer_player_index <? MAX_PLAYERS_PER_TEAM)%nat InvalidPlayerIndex;;
  require (victim_player_index <? MAX_PLAYERS_PER_TEAM)%nat InvalidPlayerIndex;;
  (* Record kill with bounds checking *)
  match killer_team with
  | 0%nat => record_kill_a killer_player_index
  | 1%nat => record_kill_b killer_player_index
  | _ => fail InvalidTeam
  end;;
  (* Decrement spawns with underflow protection *)
  match victim_team with
  | 0%nat => take_spawn_a victim_player_index
  | 1%nat => take_spawn_b victim_player_index
  | _ => fail InvalidTeam
  end;;
  ret tt.

(** ** Session creation *)

(** Modelled from the spec: the starting value of a slot's spawn counter is
    a parameter of the mode (section 3: 10 for PayToSpawn, 1 for
    WinnerTakesAll); `create_game_session` is not part of the quoted code
    beyond its bet validation. *)
Definition starting_spawns (m : GameMode) : Z :=
  if is_pay_to_spawn m then 10 else 1.

Definition empty_team (m : GameMode) : Team :=
  mkTeam (replicate MAX_PLAYERS_PER_TEAM Pubkey_default)
         (replicate MAX_PLAYERS_PER_TEAM 0)
         (replicate MAX_PLAYERS_PER_TEAM (starting_spawns m)).

Definition new_session (id : string) (auth : Pubkey) (bet : Z) (m : GameMode)
  : GameSession :=
  mkGameSession id auth bet m (empty_team m) (empty_team m)
    WaitingForPlayers 0 1 10.

(** Run a method and keep the session it leaves behind. *)
Definition exec {A} (m : Mut GameSession A) (g : GameSession) : GameSession :=
  snd (m g).
Definition outcome {A} (m : Mut GameSession A) (g : GameSession) : Result A :=
  fst (m g).

(** The call reaches the victim's side of [add_kill]: both indices are in
    range and the killer's counter can still be incremented. *)
Definition killer_can_score (g : GameSession) (kt ki vi : nat) : Prop :=
  (ki < MAX_PLAYERS_PER_TEAM)%nat ∧ (vi < MAX_PLAYERS_PER_TEAM)%nat ∧
  ∃ k, kills_of g kt ki = Some k ∧ k < u32_MAX.

(** The victim's half as one function of the team argument. *)
Definition take_spawn (vt vi : nat) : Mut GameSession unit :=
  match vt with
  | 0%nat => take_spawn_a vi
  | 1%nat => take_spawn_b vi
  | _ => fail InvalidTeam
  end.

Definition record_kill (kt ki : nat) : Mut GameSession unit :=
  match kt with
  | 0%nat => record_kill_a ki
  | 1%nat => record_kill_b ki
  | _ => fail InvalidTeam
  end.


(** ** Sessions used by the scenarios of section 8 *)

(** A 1v1 session in progress: player 1 holds slot 0 of team A and
    player 2 slot 0 of team B. *)
Definition duel (m : GameMode) (bet : Z) (st : GameStatus) : GameSession :=
  let g := new_session "duel" 7 bet m in
  set_status
    (set_team_b
       (set_team_a g (set_players (team_a g) (<[0%nat:=1]> (players (team_a g)))))
       (set_players (team_b g) (<[0%nat:=2]> (players (team_b g)))))
    st.

(** Scenario C after its ten kills of player 2 by player 1. *)
Definition scenario_c_eliminated : GameSession :=
  Nat.iter 10 (exec (add_kill 0 0 1 0)) (duel PayToSpawnOneVsOne 1000 InProgress).

(** ** Combat ledger: [add_spawns] (section 3.4, recommended fix) *)

(** `self.team_X.player_spawns[i] += spawn_count` on a `u16`. *)
Definition add_spawns (team : nat) (player_index : nat) : Mut GameSession unit :=
  g ← get;
  let spawn_count := spawns_per_purchase g in
  match team with
  | 0%nat =>
      n ← index (player_spawns (team_a g) !! player_index);
      n' ← add_checked u16_MAX n spawn_count;
      put (set_team_a g (set_player_spawns (team_a g)
                           (<[player_index:=n']> (player_spawns (team_a g)))))
  | 1%nat =>
      n ← index (player_spawns (team_b g) !! player_index);
      n' ← add_checked u16_MAX n spawn_count;
      put (set_team_b g (set_player_spawns (team_b g)
                           (<[player_index:=n']> (player_spawns (team_b g)))))
  | _ => fail InvalidTeam
  end;;
  ret tt.

(** The cap the test suite checks the stored counter against
    (edge-cases.ts, `MAX_SPAWNS_PER_PLAYER`). *)
Definition MAX_SPAWNS_PER_PLAYER : Z := 100.

(** The `payToSpawn` loop of the test "Should prevent spawn purchase
    overflow": up to [n] purchases for slot 0 of team A, stopping at the
    first failure. *)
Fixpoint purchase_loop (n : nat) (g : GameSession) : GameSession :=
  match n with
  | O => g
  | S n' =>
      match add_spawns 0 0 g with
      | (Ok _, g') => purchase_loop n' g'
      | (Err _, g') => g'
      end
  end.

(** ** The custodial ledger *)

(** Modelled from the spec: the Ledger Adapter of sections 2 and 6,
    `transfer(from, to, amount) -> ok | fails(InsufficientFunds)` and
    `balance_of(account)`, with the session's vault as one account and the
    players' token accounts keyed by their identity. *)
Record Ledger := mkLedger {
  vault_balance : Z;
  balance_of : Pubkey → Z
}.

Definition credit (bal : Pubkey → Z) (p : Pubkey) (amount : Z) : Pubkey → Z :=
  fun q => if decide (q = p) then bal q + amount else bal q.

(** Vault to player. *)
Definition transfer_from_vault (l : Ledger) (to : Pubkey) (amount : Z)
  : Result Ledger :=
  if vault_balance l <? amount then Err InsufficientFunds
  else Ok (mkLedger (vault_balance l - amount) (credit (balance_of l) to amount)).

(** Player to vault. *)
Definition transfer_to_vault (l : Ledger) (from : Pubkey) (amount : Z)
  : Result Ledger :=
  if balance_of l from <? amount then Err InsufficientFunds
  else Ok (mkLedger (vault_balance l + amount) (credit (balance_of l) from (- amount))).

(** Two ledgers that answer every `balance_of` alike. *)
Definition same_balances (l l' : Ledger) : Prop :=
  vault_balance l = vault_balance l' ∧ ∀ p, balance_of l p = balance_of l' p.

(** What an instruction works on: the session account and the ledger. *)
Record World := mkWorld {
  session : GameSession;
  bank : Ledger
}.

Definition run {A} (m : Mut World A) (w : World) : Result A := fst (m w).
Definition after {A} (m : Mut World A) (w : World) : World := snd (m w).

(** A `Result` computed without touching the state, followed by `?`. *)
Definition lift {S A} (r : Result A) : Mut S A := fun s => (r, s).

(** ** Team allocator: [join_user] *)

(** Modelled from the spec: `Team::get_empty_slot`, called by
    [check_all_filled] and not part of the quoted code: the first of the
    team's `player_count` slots that holds no identity, else `TeamIsFull`
    (section 4.2, "target team has at least one empty slot"). *)
Definition get_empty_slot (t : Team) (player_count : nat) : Result nat :=
  match list_find (λ p, p = Pubkey_default) (take player_count (players t)) with
  | Some (i, _) => Ok i
  | None => Err (Wager TeamIsFull)
  end.

(** Modelled from the spec: `GameSession::get_player_empty_slot`, the
    empty-slot search of the team named by the argument. *)
Definition get_player_empty_slot (g : GameSession) (team : nat) : Result nat :=
  match team with
  | 0%nat => get_empty_slot (team_a g) (players_per_team (game_mode g))
  | 1%nat => get_empty_slot (team_b g) (players_per_team (game_mode g))
  | _ => Err (Wager InvalidTeam)
  end.

(** section 2.2, recommended fix *)
Definition check_all_filled (g : GameSession) : Result bool :=
  let player_count := players_per_team (game_mode g) in
  let team_a_full := negb (is_ok (get_empty_slot (team_a g) player_count)) in
  let team_b_full := negb (is_ok (get_empty_slot (team_b g) player_count)) in
  Ok (team_a_full && team_b_full).

(** `players.contains(&player_key)` *)
Definition contains (l : list Pubkey) (p : Pubkey) : bool := bool_decide (p ∈ l).

(** Modelled from the spec: the debit of the stake, section 4.2 (a). *)
Definition debit_stake (user : Pubkey) (amount : Z) : Mut World unit :=
  fun w => match transfer_to_vault (bank w) user amount with
           | Ok l => (Ok tt, mkWorld (session w) l)
           | Err _ => (Err (Wager InsufficientUserBalance), w)
           end.

(** Modelled from the spec: the claim of the slot, section 4.2 (b). *)
Definition claim_slot (team : nat) (i : nat) (user : Pubkey) : Mut World unit :=
  fun w =>
    let g := session w in
    match team with
    | 0%nat => (Ok tt, mkWorld (set_team_a g (set_players (team_a g)
                                   (<[i:=user]> (players (team_a g))))) (bank w))
    | 1%nat => (Ok tt, mkWorld (set_team_b g (set_players (team_b g)
                                   (<[i:=user]> (players (team_b g))))) (bank w))
    | _ => (Err (Wager InvalidTeam), w)
    end.

(** join_user.rs: the validations of section 2.4 (with the recommended
    duplicate check), the debit and the claim of the slot, and the status
    update quoted in section 1.3. *)
Definition join_user (user : Pubkey) (team : nat) : Mut World unit :=
  w ← get;
  let game_session := session w in
  require (bool_decide (status game_session = WaitingForPlayers)) InvalidGameState;;
  (* Validate team number (0 for team A, 1 for team B) *)
  require ((team =? 0)%nat || (team =? 1)%nat) InvalidTeamSelection;;
  let player_key := user in
  require (negb (contains (players (team_a game_session)) player_key) &&
           negb (contains (players (team_b game_session)) player_key))
          PlayerAlreadyJoined;;
  (* Check if team is full already *)
  empty_index ← lift (get_player_empty_slot game_session team);
  debit_stake user (session_bet game_session);;
  claim_slot team empty_index user;;
  w' ← get;
  all_filled ← lift (check_all_filled (session w'));
  if negb all_filled
  then put (mkWorld (set_status (session w') InProgress) (bank w'))
  else ret tt.

(** Section 3 invariant: an identity holds at most one slot across both
    teams. *)
Definition occupied (l : list Pubkey) : list Pubkey :=
  filter (λ p, p ≠ Pubkey_default) l.

Definition unique_players (g : GameSession) : Prop :=
  NoDup (occupied (players (team_a g) ++ players (team_b g))).

(** A ledger in which players 1, 2 and 3 hold 5000 each. *)
Definition funded (vault : Z) : Ledger :=
  mkLedger vault (fun p => if decide (1 ≤ p ≤ 3) then 5000 else 0).

(** Both teams of a team-size-1 session are still empty. *)
Definition fresh_duel : World :=
  mkWorld (new_session "atomic_test" 7 1000 WinnerTakesAllOneVsOne) (funded 0).

(** Team A of a team-size-1 session is taken, team B's slot is the last
    empty one. *)
Definition last_slot_open : World :=
  let g := new_session "atomic_test" 7 1000 WinnerTakesAllOneVsOne in
  mkWorld (set_team_a g (set_players (team_a g) (<[0%nat:=1]> (players (team_a g)))))
          (funded 1000).

(** ** Settlement: distribute_winnings.rs *)

(** `u64::checked_mul` and `u64::checked_div` *)
Definition checked_mul (a b : Z) : option Z :=
  if a * b <=? u64_MAX then Some (a * b) else None.
Definition checked_div (a b : Z) : option Z :=
  if b =? 0 then None else Some (a `div` b).

(** section 2.3, recommended fix:
    `checked_mul(session_bet).and_then(|x| x.checked_div(10))
       .ok_or(WagerError::ArithmeticError)` *)
Definition calculate_earnings (kills_and_spawns session_bet : Z) : Result Z :=
  match checked_mul kills_and_spawns session_bet ≫= (λ x, checked_div x 10) with
  | Some earnings => Ok earnings
  | None => Err (Wager ArithmeticError)
  end.

(** Modelled from the spec: `GameSession::get_all_players`, the identities
    of the occupied slots of team A, then of team B (section 4.4, "per
    occupied slot across both teams"). *)
Definition get_all_players (g : GameSession) : list Pubkey :=
  occupied (players (team_a g) ++ players (team_b g)).

Definition slot_score (t : Team) (i : nat) : option Z :=
  k ← player_kills t !! i; n ← player_spawns t !! i; Some (k + n).

(** Modelled from the spec: `GameSession::get_kills_and_spawns`, the sum
    `kills + spawns` of the slot the player holds, team A searched first
    (section 4.4, "(kills + spawns)"). *)
Definition get_kills_and_spawns (g : GameSession) (player : Pubkey) : Result Z :=
  match list_find (λ p, p = player) (players (team_a g)) with
  | Some (i, _) =>
      match slot_score (team_a g) i with Some s => Ok s | None => Err Panic end
  | None =>
      match list_find (λ p, p = player) (players (team_b g)) with
      | Some (i, _) =>
          match slot_score (team_b g) i with Some s => Ok s | None => Err Panic end
      | None => Err (Wager InvalidPlayer)
      end
  end.

(** `anchor_spl::token::transfer(.., amount)?` out of the vault *)
Definition token_transfer (to : Pubkey) (amount : Z) : Mut Ledger unit :=
  fun l => match transfer_from_vault l to amount with
           | Ok l' => (Ok tt, l')
           | Err f => (Err f, l)
           end.

(** `iter().step_by(2)`: the accounts at positions 0, 2, 4, ... *)
Fixpoint step_by_2 {A} (l : list A) : list A :=
  match l with
  | [] => []
  | x :: rest =>
      x :: match rest with
           | [] => []
           | _ :: rest' => step_by_2 rest'
           end
  end.

(** section 3.3, "linear search through remaining accounts for each
    player":
    `.step_by(2).position(|acc| acc.key() == player)
      .ok_or(WagerError::InvalidPlayer)` *)
Definition find_player_index (remaining_accounts : list Pubkey) (player : Pubkey)
  : Result nat :=
  match list_find (λ key, key = player) (step_by_2 remaining_accounts) with
  | Some (i, _) => Ok i
  | None => Err (Wager InvalidPlayer)
  end.

(** `player_token_account_info`: the remaining accounts are pairs of a
    player account and its token account (`chunk[0]`, `chunk[1]` in the
    fix of section 3.3), so the token account of the player found at pair
    [player_index] is the account after it; indexing past the end
    aborts. *)
Definition player_token_account (remaining_accounts : list Pubkey) (player : Pubkey)
  : Result Pubkey :=
  match find_player_index remaining_accounts player with
  | Ok player_index =>
      match remaining_accounts !! (player_index * 2 + 1)%nat with
      | Some token_account => Ok token_account
      | None => Err Panic
      end
  | Err f => Err f
  end.

(** The loop of [distribute_pay_spawn_earnings] (section 1.2, function 1)
    with the balance check of its recommended fix, the checked arithmetic
    of section 2.3 and the search of the remaining accounts of section
    3.3, which the excerpt of section 1.2 leaves out and which is placed
    here between the computation of the earnings and their transfer. The
    session is borrowed immutably; the loop works on the ledger.
    `ctx.accounts.vault_token_account.amount` is a field of the account as
    it was deserialized when the instruction began, and nothing reloads
    it: every round checks the earnings against that same amount, while
    the transfer itself is the token program's and acts on the ledger as
    it is. A transfer that has been made stays made when a later step
    fails (section 3.1: "failed transfers may leave game in inconsistent
    state"). *)
Fixpoint pay_spawn_loop (game_session : GameSession)
    (remaining_accounts : list Pubkey) (vault_token_account_amount : Z)
    (players : list Pubkey) : Mut Ledger unit :=
  match players with
  | [] => ret tt
  | player :: rest =>
      kills_and_spawns ← lift (get_kills_and_spawns game_session player);
      if kills_and_spawns =? 0
      then pay_spawn_loop game_session remaining_accounts
             vault_token_account_amount rest
      else
        earnings ← lift (calculate_earnings kills_and_spawns
                          (session_bet game_session));
        player_token_account_info ←
          lift (player_token_account remaining_accounts player);
        (if 0 <? earnings then
           let vault_balance := vault_token_account_amount in
           require (earnings <=? vault_balance) InsufficientVaultBalance;;
           token_transfer player_token_account_info earnings
         else ret tt);;
        pay_spawn_loop game_session remaining_accounts
          vault_token_account_amount rest
  end.

Definition distribute_pay_spawn_earnings (remaining_accounts : list Pubkey)
  : Mut World unit :=
  fun w =>
    let game_session := session w in
    let players := get_all_players game_session in
    let vault_token_account_amount := vault_balance (bank w) in
    let (r, l) := pay_spawn_loop game_session remaining_accounts
                    vault_token_account_amount players (bank w) in
    (r, mkWorld game_session l).

(** The loop of [distribute_all_winnings_handler] (section 1.2, function 2)
    with the balance check of its recommended fix, against the same
    never-reloaded `vault_token_account.amount`. Slot [i] of the winning
    team is the recipient of round [i]; how the handler finds
    `winner_token_account` is not quoted, the recipient is the account of
    the slot's identity. *)
Fixpoint winnings_loop (game_session : GameSession)
    (vault_token_account_amount : Z) (winners : list Pubkey)
  : Mut Ledger unit :=
  match winners with
  | [] => ret tt
  | winner :: rest =>
      winning_amount ← mul_checked u64_MAX (session_bet game_session) 2;
      let vault_balance := vault_token_account_amount in
      require (winning_amount <=? vault_balance) InsufficientVaultBalance;;
      token_transfer winner winning_amount;;
      winnings_loop game_session vault_token_account_amount rest
  end.

(** The slots `0..players_per_team` of the winning team; a team index
    other than 0 or 1 is refused by the validation the report leaves out
    ("... validation code ..."). *)
Definition winning_slots (g : GameSession) (winning_team : nat) : Result (list Pubkey) :=
  match team_of g winning_team with
  | Some t => Ok (take (players_per_team (game_mode g)) (players t))
  | None => Err (Wager InvalidTeamSelection)
  end.

(** The handler ends with `Ok(())` after its loop: it writes nothing to
    the session. *)
Definition distribute_all_winnings_handler (winning_team : nat) : Mut World unit :=
  fun w =>
    let game_session := session w in
    match winning_slots game_session winning_team with
    | Ok winners =>
        let vault_token_account_amount := vault_balance (bank w) in
        let (r, l) := winnings_loop game_session vault_token_account_amount
                        winners (bank w) in
        (r, mkWorld game_session l)
    | Err f => (Err f, w)
    end.

(** *** Appendix A.2: [distribute_winnings] *)

Definition total_of (ds : list (Pubkey * Z)) : Z :=
  foldr (λ d acc, d.2 + acc) 0 ds.

(** Modelled from the spec: `transfer_tokens`, one Ledger Adapter transfer
    from the vault to the recipient. *)
Definition transfer_tokens (l : Ledger) (player_account : Pubkey) (amount : Z)
  : Result Ledger :=
  transfer_from_vault l player_account amount.

(** A Ledger Adapter transfer from a player back to the vault. *)
Definition token_return (from : Pubkey) (amount : Z) : Mut Ledger unit :=
  fun l => match transfer_to_vault l from amount with
           | Ok l' => (Ok tt, l')
           | Err f => (Err f, l)
           end.

(** Modelled from the spec: `rollback_transfers`, every transfer made so
    far is returned to the vault ("none of the batch's effects are
    retained"). *)
Fixpoint rollback_transfers (successful : list (Pubkey * Z)) : Mut Ledger unit :=
  match successful with
  | [] => ret tt
  | (p, amount) :: rest => token_return p amount;; rollback_transfers rest
  end.

(** The `for` loop of A.2 with its list of successful transfers. *)
Fixpoint transfer_all (distributions successful : list (Pubkey * Z))
  : Mut Ledger unit :=
  match distributions with
  | [] => ret tt
  | (player_account, amount) :: rest =>
      fun l =>
        match transfer_tokens l player_account amount with
        | Ok l' => transfer_all rest (successful ++ [(player_account, amount)]) l'
        | Err e =>
            (* Rollback all successful transfers *)
            (rollback_transfers successful;; raise e) l
        end
  end.

Section DistributeWinnings.

(** `calculate_distributions` is called by A.2 and not part of the
    quoted code: the (recipient, amount) pairs of the session's mode. *)
Variable calculate_distributions : GameSession → Result (list (Pubkey * Z)).

(** Modelled from the spec: `calculate_total_distribution`, the sum of
    the amounts of [calculate_distributions] (section 4.4, "total = Σ
    payout"), an ArithmeticError when it leaves `u64`. *)
Definition calculate_total_distribution (g : GameSession) : Result Z :=
  match calculate_distributions g with
  | Ok ds => if total_of ds <=? u64_MAX then Ok (total_of ds)
             else Err (Wager ArithmeticError)
  | Err f => Err f
  end.

Definition distribute_winnings : Mut World unit :=
  w ← get;
  let game_session := session w in
  (* Validate game is complete *)
  require (bool_decide (status game_session = Completed)) GameNotComplete;;
  (* Calculate total distribution required *)
  total_distribution ← lift (calculate_total_distribution game_session);
  (* Validate vault has sufficient balance *)
  let vault_balance := vault_balance (bank w) in
  require (total_distribution <=? vault_balance) InsufficientVaultBalance;;
  (* Perform distributions with rollback capability *)
  distributions ← lift (calculate_distributions game_session);
  (λ w, let (r, l) := transfer_all distributions [] (bank w) in
        (r, mkWorld (session w) l));;
  w' ← get;
  put (mkWorld (set_status (session w') Distributed) (bank w')).

End DistributeWinnings.

(** Every transfer of a list carried out, without any check. *)
Definition pay_all (l : Ledger) (ds : list (Pubkey * Z)) : Ledger :=
  foldl (λ l d, mkLedger (vault_balance l - d.2) (credit (balance_of l) d.1 d.2)) l ds.

(** A 1v1 WinnerTakesAll session with a bet of 1000 that holds both
    stakes in its vault: player 1 has one kill, the session is
    Completed. *)
Definition scenario_a_completed : World :=
  mkWorld (exec (add_kill 0 0 1 0) (duel WinnerTakesAllOneVsOne 1000 Completed))
          (mkLedger 2000 (fun p => if decide (1 ≤ p ≤ 2) then 4000 else 0)).

(** A Completed PayToSpawn 1v1 session given a vault balance. *)
Definition pay_spawn_completed (vault : Z) : World :=
  mkWorld (duel PayToSpawnOneVsOne 1000 Completed)
          (mkLedger vault (fun p => if decide (1 ≤ p ≤ 2) then 4000 else 0)).

(** The remaining accounts of a 1v1 settlement: players 1 and 2, each
    followed by its token account, 101 and 102. *)
Definition duel_accounts : list Pubkey := [1; 101; 2; 102].

(** A 1v1 session in which player 1's kill counter has reached `u32::MAX`
    and player 2 has no spawn left. *)
Definition saturated_duel : GameSession :=
  let g := scenario_c_eliminated in
  set_team_a g (set_player_kills (team_a g)
                  (<[0%nat:=u32_MAX]> (player_kills (team_a g)))).

(** ** The session state machine *)

(** Section 4.1: the privileged status-set operation to Completed is an
    external decision of the authority. *)
Definition mark_completed (w : World) : World :=
  mkWorld (set_status (session w) Completed) (bank w).

Definition on_session (m : Mut GameSession unit) (w : World) : World :=
  mkWorld (exec m (session w)) (bank w).

(** One call of a public operation, whatever its outcome; the state after
    the call is the one the operation leaves behind. The settlement of
    Appendix A.2 may be called with any `calculate_distributions`. *)
Inductive step : World → World → Prop :=
| step_join_user user team w :
    step w (after (join_user user team) w)
| step_add_kill kt ki vt vi w :
    step w (on_session (add_kill kt ki vt vi) w)
| step_add_spawns team i w :
    step w (on_session (add_spawns team i) w)
| step_mark_completed w :
    step w (mark_completed w)
| step_distribute_pay_spawn_earnings remaining_accounts w :
    step w (after (distribute_pay_spawn_earnings remaining_accounts) w)
| step_distribute_all_winnings_handler winning_team w :
    step w (after (distribute_all_winnings_handler winning_team) w)
| step_distribute_winnings calculate_distributions w :
    step w (after (distribute_winnings calculate_distributions) w).

(** Reachable from a newly created session. *)
Definition reachable (w : World) : Prop :=
  ∃ id auth bet m l, rtc step (mkWorld (new_session id auth bet m) l) w.

(** Scenario A from the creation of the session, one call after the
    other: players 1 and 2 join teams 0 and 1, player 1 kills player 2,
    the authority marks the session Completed. *)
Definition scenario_a_joined : World :=
  after (join_user 2 1) (after (join_user 1 0) fresh_duel).

Definition scenario_a_run : World :=
  mark_completed (on_session (add_kill 0 0 1 0) scenario_a_joined).

(** Scenario B and the test "should prevent same player from joining
    multiple teams": a 3v3 session with a bet of 1000 that player 1 has
    joined on team 0. *)
Definition scenario_b_created : World :=
  mkWorld (new_session "duplicate_test" 7 1000 WinnerTakesAllThreeVsThree)
          (funded 0).

Definition scenario_b_joined : World :=
  after (join_user 1 0) scenario_b_created.


(** What a list of transfers sends to one recipient. *)
Definition received (ds : list (Pubkey * Z)) (p : Pubkey) : Z :=
  foldr (λ d acc, if decide (d.1 = p) then d.2 + acc else acc) 0 ds.

(** Balances and vault are amounts of an unsigned asset. *)
Definition ledger_valid (l : Ledger) : Prop :=
  0 ≤ vault_balance l ∧ ∀ p, 0 ≤ balance_of l p.

(** The payout of section 4.4 for one player:
    floor((kills + spawns) × bet / 10). *)
Definition earnings_of (g : GameSession) (p : Pubkey) : Z :=
  match get_kills_and_spawns g p with
  | Ok s => (s * session_bet g) `div` 10
  | Err _ => 0
  end.

(** The transfer that payout asks for: none when it is zero, else one to
    the token account listed for the player among the remaining
    accounts. *)
Definition earnings_transfer (g : GameSession) (remaining_accounts : list Pubkey)
    (p : Pubkey) : list (Pubkey * Z) :=
  match player_token_account remaining_accounts p with
  | Ok token_account =>
      if 0 <? earnings_of g p then [(token_account, earnings_of g p)] else []
  | Err _ => []
  end.

(** The transfers of section 4.4 for a list of players, in their order. *)
Definition pay_spawn_transfers (g : GameSession) (remaining_accounts : list Pubkey)
    (players : list Pubkey) : list (Pubkey * Z) :=
  players ≫= earnings_transfer g remaining_accounts.

Definition pay_spawn_plan (g : GameSession) (remaining_accounts : list Pubkey)
  : list (Pubkey * Z) :=
  pay_spawn_transfers g remaining_accounts (get_all_players g).


(** * Further code of the report *)

(** ** state.rs as audited: the original victim decrement and spawn
    purchase *)

(** section 1.1, "current vulnerable code": the decrement without its
    `require!`. *)
Definition take_spawn_original (victim_team victim_player_index : nat)
  : Mut GameSession unit :=
  match victim_team with
  | 0%nat =>
      g ← get;
      n ← index (player_spawns (team_a g) !! victim_player_index);
      n' ← sub_checked n 1;
      put (set_team_a g (set_player_spawns (team_a g)
             (<[victim_player_index:=n']> (player_spawns (team_a g)))))
  | 1%nat =>
      g ← get;
      n ← index (player_spawns (team_b g) !! victim_player_index);
      n' ← sub_checked n 1;
      put (set_team_b g (set_player_spawns (team_b g)
             (<[victim_player_index:=n']> (player_spawns (team_b g)))))
  | _ => fail InvalidTeam
  end.

(** section 3.4, "vulnerable code": the increment is the literal `10u16`. *)
Definition add_spawns_original (team : nat) (player_index : nat)
  : Mut GameSession unit :=
  g ← get;
  match team with
  | 0%nat =>
      n ← index (player_spawns (team_a g) !! player_index);
      n' ← add_checked u16_MAX n 10;
      put (set_team_a g (set_player_spawns (team_a g)
                           (<[player_index:=n']> (player_spawns (team_a g)))))
  | 1%nat =>
      n ← index (player_spawns (team_b g) !! player_index);
      n' ← add_checked u16_MAX n 10;
      put (set_team_b g (set_player_spawns (team_b g)
                           (<[player_index:=n']> (player_spawns (team_b g)))))
  | _ => fail InvalidTeam
  end;;
  ret tt.



(** The four counter arrays have their declared length. *)
Definition arrays_sized (g : GameSession) : Prop :=
  length (player_kills (team_a g)) = MAX_PLAYERS_PER_TEAM ∧
  length (player_spawns (team_a g)) = MAX_PLAYERS_PER_TEAM ∧
  length (player_kills (team_b g)) = MAX_PLAYERS_PER_TEAM ∧
  length (player_spawns (team_b g)) = MAX_PLAYERS_PER_TEAM.

(** ** join_user.rs over the state machine *)

(** The player arrays have their declared length, and no seat is taken
    for as long as the session waits for players. *)
Definition waiting_unseated (g : GameSession) : Prop :=
  length (players (team_a g)) = MAX_PLAYERS_PER_TEAM ∧
  length (players (team_b g)) = MAX_PLAYERS_PER_TEAM ∧
  (status g = WaitingForPlayers →
   ∀ p, p ∈ players (team_a g) ++ players (team_b g) → p = Pubkey_default).

(** ** create_game_session.rs (section 2.5) and the expiry check
    (section 3.2) *)

(** The variants of `WagerError` these two checks raise. *)
Inductive SessionError :=
| InvalidBetAmount
| BetAmountTooHigh
| BetAmountTooLow
| GameSessionExpired.

Inductive Verdict :=
| Accepted
| Rejected (e : SessionError).

(** "Test constants matching the security fixes" (edge-cases.ts). *)
Definition MIN_BET_AMOUNT : Z := 1000.
Definition MAX_BET_AMOUNT : Z := 1000000000000.

(** The three `require!` of the recommended fix, in their order. *)
Definition validate_bet_amount (bet_amount : Z) : Verdict :=
  if negb (0 <? bet_amount) then Rejected InvalidBetAmount
  else if negb (bet_amount <=? MAX_BET_AMOUNT) then Rejected BetAmountTooHigh
  else if negb (MIN_BET_AMOUNT <=? bet_amount) then Rejected BetAmountTooLow
  else Accepted.

(** `GameSession::is_expired` *)
Definition is_expired (g : GameSession) (current_time : Z) : bool :=
  expires_at g <=? current_time.

(** `require!(!game_session.is_expired(clock.unix_timestamp),
              WagerError::GameSessionExpired)` *)
Definition require_not_expired (g : GameSession) (unix_timestamp : Z) : Verdict :=
  if negb (is_expired g unix_timestamp) then Accepted
  else Rejected GameSessionExpired.

(** ** distribute_winnings.rs: the two-pass fix of section 3.3 *)

(** section 3.3, recommended fix, first loop: one pass over
    `remaining_accounts.chunks(2)` that collects the transfers. A last
    chunk of one account aborts on `chunk[1]`. *)
Fixpoint plan_transfers (game_session : GameSession) (remaining_accounts : list Pubkey)
  : Result (list (Pubkey * Z)) :=
  match remaining_accounts with
  | [] => Ok []
  | player_account :: rest =>
      match rest with
      | [] => Err Panic
      | token_account :: rest' =>
          match get_kills_and_spawns game_session player_account with
          | Err f => Err f
          | Ok kills_and_spawns =>
              if kills_and_spawns =? 0 then plan_transfers game_session rest'
              else
                match calculate_earnings kills_and_spawns
                        (session_bet game_session) with
                | Err f => Err f
                | Ok earnings =>
                    match plan_transfers game_session rest' with
                    | Ok transfers => Ok ((token_account, earnings) :: transfers)
                    | Err f => Err f
                    end
                end
          end
      end
  end.

(** ** distribute_winnings.rs as audited (section 1.2, "vulnerable code") *)

(** The loop of function 1: unchecked `kills_and_spawns as u64 *
    session_bet / 10`, the search of the remaining accounts, and a
    transfer with no check of the vault, whose balance is read and
    logged. *)
Fixpoint pay_spawn_loop_original (game_session : GameSession)
    (remaining_accounts : list Pubkey) (players : list Pubkey)
  : Mut Ledger unit :=
  match players with
  | [] => ret tt
  | player :: rest =>
      kills_and_spawns ← lift (get_kills_and_spawns game_session player);
      if kills_and_spawns =? 0
      then pay_spawn_loop_original game_session remaining_accounts rest
      else
        product ← mul_checked u64_MAX kills_and_spawns (session_bet game_session);
        let earnings := product `div` 10 in
        player_token_account_info ←
          lift (player_token_account remaining_accounts player);
        (if 0 <? earnings
         then token_transfer player_token_account_info earnings
         else ret tt);;
        pay_spawn_loop_original game_session remaining_accounts rest
  end.

(** The loop of function 2. *)
Fixpoint winnings_loop_original (game_session : GameSession) (winners : list Pubkey)
  : Mut Ledger unit :=
  match winners with
  | [] => ret tt
  | winner :: rest =>
      winning_amount ← mul_checked u64_MAX (session_bet game_session) 2;
      token_transfer winner winning_amount;;
      winnings_loop_original game_session rest
  end.

(** The outcome of an audited loop next to the outcome of the fixed one:
    where the fix answers InsufficientVaultBalance the ledger had refused
    the transfer, and where it answers ArithmeticError the product had
    aborted. *)
Definition as_audited (r : Result unit) : Result unit :=
  match r with
  | Err (Wager InsufficientVaultBalance) => Err InsufficientFunds
  | Err (Wager ArithmeticError) => Err Panic
  | _ => r
  end.

(** ** state.rs as audited: [check_all_filled] by error text
    (section 2.2, "vulnerable code") *)

Section ErrorText.

(** `Error::to_string` is the framework's; the audited check only asks
    whether the text contains "TeamIsFull". *)
Variable to_string : Failure → string.

Definition is_team_full_error (error : Failure) : bool :=
  match String.index 0 "TeamIsFull" (to_string error) with
  | Some _ => true
  | None => false
  end.

Definition check_all_filled_original (g : GameSession) : Result bool :=
  let player_count := players_per_team (game_mode g) in
  Ok (match get_empty_slot (team_a g) player_count,
            get_empty_slot (team_b g) player_count with
      | Err e1, Err e2 => is_team_full_error e1 && is_team_full_error e2
      | _, _ => false
      end).

End ErrorText.

(** An error text in the framework's style. *)
Definition anchor_text (f : Failure) : string :=
  match f with
  | Wager TeamIsFull => "Error Code: TeamIsFull. Error Message: Team is already full."
  | _ => "Error Code: Other."
  end.

(** * Proofs *)

Ltac mut_unfold :=
  unfold outcome, exec, add_kill, record_kill_a, record_kill_b,
    take_spawn_a, take_spawn_b, mbind, mret, Mut_bind, Mut_ret, bind,
    require, index, get, put, ret, fail, panic, add_checked, sub_checked,
    mul_checked in *.

Lemma nat_ltb_true (a b : nat) : (a < b)%nat → (a <? b)%nat = true.
Proof. intros. by apply Nat.ltb_lt. Qed.

(** The killer's half of [add_kill] never touches a spawn counter. *)
Lemma record_kill_a_spawns i g vt vi :
  spawns_of (exec (record_kill_a i) g) vt vi = spawns_of g vt vi.
Proof.
  mut_unfold. simpl. repeat (case_match; mut_unfold; simplify_eq/=); try done.
  all: by destruct vt as [|[|?]].
Qed.

Lemma record_kill_b_spawns i g vt vi :
  spawns_of (exec (record_kill_b i) g) vt vi = spawns_of g vt vi.
Proof.
  mut_unfold. simpl. repeat (case_match; mut_unfold; simplify_eq/=); try done.
  all: by destruct vt as [|[|?]].
Qed.

(** What the victim's half does to the victim's own counter. *)
Lemma take_spawn_a_spec i g n :
  player_spawns (team_a g) !! i = Some n →
  (n <= 0 → take_spawn_a i g = (Err (Wager PlayerHasNoSpawns), g)) ∧
  (0 < n → outcome (take_spawn_a i) g = Ok tt ∧
           spawns_of (exec (take_spawn_a i) g) 0 i = Some (n - 1)).
Proof.
  intros Hn. mut_unfold. simpl. rewrite Hn. simpl. split; intros Hz.
  - destruct (0 <? n) eqn:E; [apply Z.ltb_lt in E; lia | done].
  - destruct (0 <? n) eqn:E; [|apply Z.ltb_ge in E; lia].
    destruct (0 <=? n - 1) eqn:E'; [|apply Z.leb_gt in E'; lia].
    simpl. split; [done|]. unfold spawns_of. simpl.
    apply list_lookup_insert_eq. by eapply lookup_lt_Some.
Qed.

Lemma take_spawn_b_spec i g n :
  player_spawns (team_b g) !! i = Some n →
  (n <= 0 → take_spawn_b i g = (Err (Wager PlayerHasNoSpawns), g)) ∧
  (0 < n → outcome (take_spawn_b i) g = Ok tt ∧
           spawns_of (exec (take_spawn_b i) g) 1 i = Some (n - 1)).
Proof.
  intros Hn. mut_unfold. simpl. rewrite Hn. simpl. split; intros Hz.
  - destruct (0 <? n) eqn:E; [apply Z.ltb_lt in E; lia | done].
  - destruct (0 <? n) eqn:E; [|apply Z.ltb_ge in E; lia].
    destruct (0 <=? n - 1) eqn:E'; [|apply Z.leb_gt in E'; lia].
    simpl. split; [done|]. unfold spawns_of. simpl.
    apply list_lookup_insert_eq. by eapply lookup_lt_Some.
Qed.

Lemma add_kill_eq kt ki vt vi g :
  add_kill kt ki vt vi g =
  (require (ki <? MAX_PLAYERS_PER_TEAM)%nat InvalidPlayerIndex;;
   require (vi <? MAX_PLAYERS_PER_TEAM)%nat InvalidPlayerIndex;;
   record_kill kt ki;; take_spawn vt vi;; ret tt) g.
Proof. reflexivity. Qed.

Lemma take_spawn_spec vt vi g n :
  spawns_of g vt vi = Some n →
  (n <= 0 → take_spawn vt vi g = (Err (Wager PlayerHasNoSpawns), g)) ∧
  (0 < n → outcome (take_spawn vt vi) g = Ok tt ∧
           spawns_of (exec (take_spawn vt vi) g) vt vi = Some (n - 1)).
Proof.
  destruct vt as [|[|?]]; unfold spawns_of; simpl; intros H.
  - by apply take_spawn_a_spec.
  - by apply take_spawn_b_spec.
  - done.
Qed.

Lemma record_kill_spawns kt ki g vt vi :
  spawns_of (exec (record_kill kt ki) g) vt vi = spawns_of g vt vi.
Proof.
  destruct kt as [|[|?]]; simpl.
  - apply record_kill_a_spawns.
  - apply record_kill_b_spawns.
  - done.
Qed.

Lemma record_kill_spec kt ki g k :
  kills_of g kt ki = Some k →
  (k < u32_MAX → outcome (record_kill kt ki) g = Ok tt ∧
                 kills_of (exec (record_kill kt ki) g) kt ki = Some (k + 1)) ∧
  (¬ k < u32_MAX → record_kill kt ki g = (Err (Wager KillCountOverflow), g)).
Proof.
  destruct kt as [|[|?]]; unfold kills_of; simpl; intros H; [| |done].
  all: mut_unfold; simpl; rewrite H; simpl; split; intros Hk.
  all: destruct (k <? u32_MAX) eqn:E;
    [apply Z.ltb_lt in E | apply Z.ltb_ge in E]; try lia; try done.
  all: destruct (k + 1 <=? u32_MAX) eqn:E'; [|apply Z.leb_gt in E'; lia].
  all: simpl; split; [done|]; apply list_lookup_insert_eq; by eapply lookup_lt_Some.
Qed.

(** [add_kill] stage by stage. *)
Lemma add_kill_run kt ki vt vi g :
  add_kill kt ki vt vi g =
  if (ki <? MAX_PLAYERS_PER_TEAM)%nat then
    if (vi <? MAX_PLAYERS_PER_TEAM)%nat then
      match record_kill kt ki g with
      | (Ok _, g1) =>
          match take_spawn vt vi g1 with
          | (Ok _, g2) => (Ok tt, g2)
          | (Err f, g2) => (Err f, g2)
          end
      | (Err f, g1) => (Err f, g1)
      end
    else (Err (Wager InvalidPlayerIndex), g)
  else (Err (Wager InvalidPlayerIndex), g).
Proof.
  rewrite add_kill_eq. unfold mbind, mret, Mut_bind, Mut_ret, bind, require, ret, fail.
  destruct (ki <? _)%nat; [|done]. destruct (vi <? _)%nat; [|done].
  destruct (record_kill kt ki g) as [[[]|f] g1]; [|done].
  by destruct (take_spawn vt vi g1) as [[[]|f] g2].
Qed.

(** C2, amended. RecordKill against a victim slot whose spawn counter is
    zero never succeeds and leaves that counter at zero, and the error is
    PlayerHasNoSpawns whenever the call reaches the victim's side (indices
    in range, killer's counter below its maximum); when the counter is
    positive such a call decrements it by exactly one; and no successful
    call ever leaves a counter below zero. *)
Theorem add_kill_spawn_guard kt ki vt vi g n :
  spawns_of g vt vi = Some n →
  (n = 0 →
     outcome (add_kill kt ki vt vi) g ≠ Ok tt ∧
     spawns_of (exec (add_kill kt ki vt vi) g) vt vi = Some 0 ∧
     (killer_can_score g kt ki vi →
      outcome (add_kill kt ki vt vi) g = Err (Wager PlayerHasNoSpawns))) ∧
  (0 < n → killer_can_score g kt ki vi →
     outcome (add_kill kt ki vt vi) g = Ok tt ∧
     spawns_of (exec (add_kill kt ki vt vi) g) vt vi = Some (n - 1)) ∧
  (outcome (add_kill kt ki vt vi) g = Ok tt →
     0 < n ∧ spawns_of (exec (add_kill kt ki vt vi) g) vt vi = Some (n - 1)).
Proof.
  intros Hn. unfold outcome, exec. rewrite add_kill_run.
  pose proof (record_kill_spawns kt ki g vt vi) as Hk. unfold exec in Hk.
  rewrite Hn in Hk.
  assert (Hreach : killer_can_score g kt ki vi →
            (ki <? MAX_PLAYERS_PER_TEAM)%nat = true ∧
            (vi <? MAX_PLAYERS_PER_TEAM)%nat = true ∧
            (record_kill kt ki g).1 = Ok tt).
  { intros (Hki & Hvi & k & Hkk & Hlt).
    repeat split; try by apply nat_ltb_true.
    by destruct (record_kill_spec kt ki g k Hkk) as [H1 _]; apply H1. }
  destruct (ki <? _)%nat eqn:Eki, (vi <? _)%nat eqn:Evi;
    destruct (record_kill kt ki g) as [[[]|f] g1] eqn:Hrk; simpl in *;
    try (destruct (take_spawn_spec vt vi g1 n Hk) as [Hzero Hpos];
         unfold outcome, exec in Hpos);
    (split; [intros ->; split; [|split; [|intros Hc]]
            |split; [intros Hp Hc; split | intros Hok; split]]);
    try (destruct (Hreach Hc) as (? & ? & ?)); simplify_eq/=; try done.
  all: try (rewrite Hzero by lia; done).
  all: try (rewrite Hzero in Hok by lia; done).
  1,2: destruct (Hpos Hp) as [Ho Hs];
       by destruct (take_spawn vt vi g1) as [[[]|f] g2]; simpl in *.
  all: destruct (Z_lt_le_dec 0 n) as [Hlt|Hle];
       [|rewrite Hzero in Hok by lia; done]; try done.
  destruct (Hpos Hlt) as [Ho Hs];
    by destruct (take_spawn vt vi g1) as [[[]|f] g2]; simpl in *.
Qed.

Lemma add_kill_spawn_guard_witness :
  outcome (add_kill 0 0 1 0) scenario_c_eliminated = Err (Wager PlayerHasNoSpawns) ∧
  spawns_of (exec (add_kill 0 0 1 0) (duel PayToSpawnOneVsOne 1000 InProgress)) 1 0
    = Some (10 - 1).
Proof.
  split.
  - destruct (add_kill_spawn_guard 0 0 1 0 scenario_c_eliminated 0 eq_refl)
      as [Hzero _].
    destruct (Hzero eq_refl) as (_ & _ & Herr). apply Herr.
    repeat split; [vm_compute; lia | vm_compute; lia |].
    exists 10. split; reflexivity.
  - destruct (add_kill_spawn_guard 0 0 1 0
                (duel PayToSpawnOneVsOne 1000 InProgress) 10 eq_refl)
      as (_ & Hpos & _).
    apply Hpos; [reflexivity|].
    repeat split; [vm_compute; lia | vm_compute; lia |].
    exists 0. split; reflexivity.
Defined.

(** C2 as stated fails: the killer's checks come first. With the killer's
    counter at `u32::MAX` a call against a victim whose spawn counter is
    zero is answered KillCountOverflow, not PlayerHasNoSpawns; with a
    killer index outside the array it is answered InvalidPlayerIndex, and
    with a killer team other than 0 or 1 InvalidTeam. *)
Lemma add_kill_zero_spawns_kill_count_overflow :
  (spawns_of saturated_duel 1 0 = Some 0 ∧
   kills_of saturated_duel 0 0 = Some u32_MAX ∧
   outcome (add_kill 0 0 1 0) saturated_duel = Err (Wager KillCountOverflow) ∧
   outcome (add_kill 0 0 1 0) saturated_duel ≠ Err (Wager PlayerHasNoSpawns)) ∧
  (spawns_of scenario_c_eliminated 1 0 = Some 0 ∧
   outcome (add_kill 0 MAX_PLAYERS_PER_TEAM 1 0) scenario_c_eliminated
     = Err (Wager InvalidPlayerIndex) ∧
   outcome (add_kill 2 0 1 0) scenario_c_eliminated = Err (Wager InvalidTeam)).
Proof. repeat split; try reflexivity. discriminate. Qed.

(** The victim's half never touches a kill counter and never reports a
    kill-count overflow. *)
Lemma take_spawn_kills vt vi g kt ki :
  kills_of (exec (take_spawn vt vi) g) kt ki = kills_of g kt ki.
Proof.
  destruct vt as [|[|?]]; simpl; [| |done].
  all: mut_unfold; simpl; repeat (case_match; mut_unfold; simplify_eq/=); try done.
  all: by destruct kt as [|[|?]].
Qed.

Lemma take_spawn_not_overflow vt vi g :
  outcome (take_spawn vt vi) g ≠ Err (Wager KillCountOverflow).
Proof.
  destruct vt as [|[|?]]; simpl; [| |done].
  all: mut_unfold; simpl; repeat (case_match; mut_unfold; simplify_eq/=); done.
Qed.

(** C3 (the code at Scenario C). After ten kills of player 2 by player 1
    the victim's counter is 0 and the killer's is 10; the eleventh
    [add_kill] returns PlayerHasNoSpawns, and the session it leaves behind
    has the killer's counter at 11: the increment of lines 792-808 has
    already happened when the check of lines 811-827 fails. *)
Theorem add_kill_failure_keeps_increment :
  spawns_of scenario_c_eliminated 1 0 = Some 0 ∧
  kills_of scenario_c_eliminated 0 0 = Some 10 ∧
  outcome (add_kill 0 0 1 0) scenario_c_eliminated = Err (Wager PlayerHasNoSpawns) ∧
  kills_of (exec (add_kill 0 0 1 0) scenario_c_eliminated) 0 0 = Some 11 ∧
  exec (add_kill 0 0 1 0) scenario_c_eliminated ≠ scenario_c_eliminated.
Proof.
  repeat split; try reflexivity.
  intros H. apply (f_equal (fun g => kills_of g 0 0)) in H.
  vm_compute in H. discriminate.
Qed.

(** The same in general: whenever the call reaches the victim's side and
    the victim has no spawn left, the error is returned with the killer's
    counter one higher than before. *)
Lemma add_kill_no_spawns_increments kt ki vt vi g k :
  (ki < MAX_PLAYERS_PER_TEAM)%nat → (vi < MAX_PLAYERS_PER_TEAM)%nat →
  kills_of g kt ki = Some k → k < u32_MAX →
  spawns_of g vt vi = Some 0 →
  outcome (add_kill kt ki vt vi) g = Err (Wager PlayerHasNoSpawns) ∧
  kills_of (exec (add_kill kt ki vt vi) g) kt ki = Some (k + 1).
Proof.
  intros Hki Hvi Hk Hlt Hs. unfold outcome, exec. rewrite add_kill_run.
  rewrite !nat_ltb_true by done.
  destruct (record_kill_spec kt ki g k Hk) as [Hok _].
  destruct (Hok Hlt) as [Ho Hk']. unfold outcome, exec in *.
  pose proof (record_kill_spawns kt ki g vt vi) as Hsp. unfold exec in Hsp.
  rewrite Hs in Hsp.
  destruct (record_kill kt ki g) as [[[]|f] g1]; simpl in *; [|done].
  destruct (take_spawn_spec vt vi g1 0 Hsp) as [Hz _].
  rewrite Hz by lia. done.
Qed.

(** C10. In the fixed [add_kill] the KillCountOverflow guard lets the
    killer's counter be incremented exactly when its value is strictly
    below u32::MAX = 4294967295: the call reports KillCountOverflow iff the
    counter is not below that bound, the counter it leaves behind is one
    higher iff it was below it, and for a counter of at most 65535 the
    guard never fires. *)
Theorem add_kill_overflow_guard kt ki vt vi g k :
  (ki < MAX_PLAYERS_PER_TEAM)%nat → (vi < MAX_PLAYERS_PER_TEAM)%nat →
  kills_of g kt ki = Some k →
  (outcome (add_kill kt ki vt vi) g = Err (Wager KillCountOverflow)
     ↔ ¬ k < 4294967295) ∧
  (kills_of (exec (add_kill kt ki vt vi) g) kt ki = Some (k + 1)
     ↔ k < 4294967295) ∧
  (k ≤ 65535 → outcome (add_kill kt ki vt vi) g ≠ Err (Wager KillCountOverflow)).
Proof.
  intros Hki Hvi Hk. change 4294967295 with u32_MAX.
  assert (Hmain :
    (k < u32_MAX → outcome (add_kill kt ki vt vi) g ≠ Err (Wager KillCountOverflow)
                   ∧ kills_of (exec (add_kill kt ki vt vi) g) kt ki = Some (k + 1)) ∧
    (¬ k < u32_MAX → add_kill kt ki vt vi g = (Err (Wager KillCountOverflow), g))).
  { unfold outcome, exec. rewrite add_kill_run, !nat_ltb_true by done.
    destruct (record_kill_spec kt ki g k Hk) as [Hok Hov]. split.
    - intros Hlt. destruct (Hok Hlt) as [Ho Hk']. unfold outcome, exec in *.
      destruct (record_kill kt ki g) as [[[]|f] g1]; simpl in *; [|done].
      pose proof (take_spawn_kills vt vi g1 kt ki) as Hkk.
      pose proof (take_spawn_not_overflow vt vi g1) as Hno.
      unfold outcome, exec in *.
      destruct (take_spawn vt vi g1) as [[[]|f] g2]; simpl in *.
      + split; [done | congruence].
      + split; [congruence | congruence].
    - intros Hge. by rewrite (Hov Hge). }
  destruct Hmain as [Hlt Hge]. repeat split.
  - intros He Hk'. by destruct (Hlt Hk').
  - intros Hn. unfold outcome. by rewrite (Hge Hn).
  - intros Hk'. destruct (Z_lt_le_dec k u32_MAX) as [|Hle]; [done|].
    unfold exec in Hk'. rewrite Hge in Hk' by lia. simpl in Hk'.
    rewrite Hk in Hk'. simplify_eq. lia.
  - intros Hk'. by destruct (Hlt Hk').
  - intros Hs. apply Hlt. unfold u32_MAX. lia.
Qed.

Lemma add_kill_overflow_guard_witness :
  kills_of (exec (add_kill 0 0 1 0) (duel PayToSpawnOneVsOne 1000 InProgress)) 0 0
    = Some (0 + 1) ↔ 0 < 4294967295.
Proof.
  refine (proj1 (proj2 (add_kill_overflow_guard 0 0 1 0
            (duel PayToSpawnOneVsOne 1000 InProgress) 0 _ _ eq_refl)));
    vm_compute; lia.
Defined.

(** ** [add_spawns] *)

(** The increment is the session's configured `spawns_per_purchase`, and
    nothing but the width of the counter bounds the result. *)
Lemma add_spawns_increment team i g n :
  spawns_of g team i = Some n →
  n + spawns_per_purchase g ≤ u16_MAX →
  outcome (add_spawns team i) g = Ok tt ∧
  spawns_of (exec (add_spawns team i) g) team i = Some (n + spawns_per_purchase g).
Proof.
  destruct team as [|[|?]]; unfold spawns_of; simpl; intros Hn Hle; [| |done].
  all: unfold add_spawns; mut_unfold; simpl; rewrite Hn; simpl.
  all: destruct (_ <=? _) eqn:E; [|apply Z.leb_gt in E; lia]; simpl.
  all: split; [done|]; apply list_lookup_insert_eq; by eapply lookup_lt_Some.
Qed.

(** C9 (the code at the test's input). Starting from 10 spawns, nine
    purchases of 10 bring slot 0 of team A to 100, the cap of the test
    suite; the tenth [add_spawns] succeeds and stores 110, and the fifteen
    purchases of the test end at 160: no purchase is refused. *)
Theorem add_spawns_exceeds_cap :
  let g := purchase_loop 9 (duel PayToSpawnOneVsOne 1000 InProgress) in
  spawns_of g 0 0 = Some MAX_SPAWNS_PER_PLAYER ∧
  outcome (add_spawns 0 0) g = Ok tt ∧
  spawns_of (exec (add_spawns 0 0) g) 0 0 = Some 110 ∧
  MAX_SPAWNS_PER_PLAYER < 110 ∧
  spawns_of (purchase_loop 15 (duel PayToSpawnOneVsOne 1000 InProgress)) 0 0
    = Some 160.
Proof. repeat split; reflexivity. Qed.

(** ** [join_user] *)

Ltac world_unfold :=
  unfold run, after, join_user, debit_stake, claim_slot, lift, check_all_filled,
    mbind, mret, Mut_bind, Mut_ret, bind, require, get, put, ret, fail in *.

Lemma contains_true l p : p ∈ l → contains l p = true.
Proof. intros. unfold contains. by apply bool_decide_eq_true. Qed.

Lemma contains_false l p : contains l p = false → p ∉ l.
Proof. unfold contains. by intros ?%bool_decide_eq_false. Qed.

(** A failed join leaves session and ledger as they were: every check
    comes before the first write. *)
Lemma join_user_failure_unchanged user team w :
  run (join_user user team) w ≠ Ok tt → after (join_user user team) w = w.
Proof.
  world_unfold. simpl.
  repeat (case_match; simplify_eq/=); try done.
  all: by destruct team as [|[|?]].
Qed.

Lemma join_user_duplicate user team w :
  user ∈ players (team_a (session w)) ∨ user ∈ players (team_b (session w)) →
  join_user user team w =
    (Err (Wager (if bool_decide (status (session w) = WaitingForPlayers)
                 then if ((team =? 0)%nat || (team =? 1)%nat)
                      then PlayerAlreadyJoined else InvalidTeamSelection
                 else InvalidGameState)), w).
Proof.
  intros Hin. world_unfold. simpl.
  destruct (bool_decide _); simpl; [|done].
  destruct (_ || _); simpl; [|done].
  destruct Hin as [Hin|Hin]; rewrite (contains_true _ _ Hin); simpl; [done|].
  by rewrite andb_false_r.
Qed.

Lemma get_empty_slot_lookup t n i :
  get_empty_slot t n = Ok i → players t !! i = Some Pubkey_default.
Proof.
  unfold get_empty_slot. destruct (list_find _ _) as [[j x]|] eqn:E; [|done].
  intros [= ->]. apply list_find_Some in E as (Hl & -> & _).
  by apply lookup_take_Some in Hl as [? _].
Qed.

(** What a successful join did to the two player arrays. *)
Lemma join_user_players user team w :
  run (join_user user team) w = Ok tt →
  (user ∉ players (team_a (session w))) ∧
  (user ∉ players (team_b (session w))) ∧
  ∃ i,
    (team = 0%nat ∧ players (team_a (session w)) !! i = Some Pubkey_default ∧
     players (team_a (session (after (join_user user team) w)))
       = <[i:=user]> (players (team_a (session w))) ∧
     players (team_b (session (after (join_user user team) w)))
       = players (team_b (session w)))
    ∨
    (team = 1%nat ∧ players (team_b (session w)) !! i = Some Pubkey_default ∧
     players (team_b (session (after (join_user user team) w)))
       = <[i:=user]> (players (team_b (session w))) ∧
     players (team_a (session (after (join_user user team) w)))
       = players (team_a (session w))).
Proof.
  world_unfold. simpl.
  destruct (bool_decide _); simpl; [|done].
  destruct (_ || _) eqn:Et; simpl; [|done].
  destruct (contains (players (team_a _)) user) eqn:Ea; simpl; [done|].
  destruct (contains (players (team_b _)) user) eqn:Eb; simpl; [done|].
  apply contains_false in Ea, Eb.
  destruct (get_player_empty_slot (session w) team) as [i|f] eqn:Ei; [|done].
  destruct (transfer_to_vault _ _ _) as [l|f]; [|done]. simpl.
  destruct team as [|[|?]]; simpl in *; [| |done].
  - apply get_empty_slot_lookup in Ei. intros _. split; [done|]. split; [done|].
    exists i. left. by repeat case_match.
  - apply get_empty_slot_lookup in Ei. intros _. split; [done|]. split; [done|].
    exists i. right. by repeat case_match.
Qed.

(** Claiming an empty slot adds exactly the new identity to the occupied
    ones. *)
Lemma occupied_claim l i user :
  l !! i = Some Pubkey_default → user ∉ l →
  occupied (<[i:=user]> l) ≡ₚ user :: occupied l.
Proof.
  intros Hi Hnot.
  assert (user ≠ Pubkey_default) as Hne.
  { intros ->. apply Hnot. by eapply list_elem_of_lookup_2. }
  rewrite insert_take_drop by (by eapply lookup_lt_Some).
  rewrite <-(take_drop_middle l i Pubkey_default Hi) at 3.
  unfold occupied. rewrite !filter_app, !filter_cons.
  rewrite decide_True by done. rewrite decide_False by (intros H; by apply H).
  by rewrite <-Permutation_middle.
Qed.

Lemma join_user_unique user team w :
  unique_players (session w) →
  unique_players (session (after (join_user user team) w)).
Proof.
  intros Hu.
  destruct (run (join_user user team) w) as [[]|f] eqn:Hok;
    [|by rewrite join_user_failure_unchanged by (by rewrite Hok)].
  destruct (join_user_players _ _ _ Hok) as (Ha & Hb & i & [H|H]);
    destruct H as (-> & Hi & Hnew & Hsame);
    unfold unique_players, occupied in *; rewrite Hnew, Hsame, filter_app;
    rewrite filter_app in Hu.
  - fold (occupied (<[i:=user]> (players (team_a (session w))))).
    rewrite occupied_claim by done. simpl. apply NoDup_cons. split; [|done].
    unfold occupied. rewrite elem_of_app, !list_elem_of_filter. tauto.
  - fold (occupied (<[i:=user]> (players (team_b (session w))))).
    rewrite occupied_claim by done. rewrite <-Permutation_middle.
    apply NoDup_cons. split; [|done].
    unfold occupied. rewrite elem_of_app, !list_elem_of_filter. tauto.
Qed.

(** What a successful join does to the status: it is set to InProgress
    exactly when [check_all_filled] answers false. *)
Lemma join_user_status user team w :
  run (join_user user team) w = Ok tt →
  ∃ filled,
    check_all_filled (session (after (join_user user team) w)) = Ok filled ∧
    status (session (after (join_user user team) w))
      = if filled then WaitingForPlayers else InProgress.
Proof.
  world_unfold. simpl.
  destruct (bool_decide _) eqn:Est; simpl; [|done].
  apply bool_decide_eq_true in Est.
  destruct (_ || _) eqn:Et; simpl; [|done].
  destruct (_ && _); simpl; [|done].
  destruct (get_player_empty_slot (session w) team) as [i|f] eqn:Ei; [|done].
  destruct (transfer_to_vault _ _ _) as [l|f]; [|done]. simpl.
  destruct team as [|[|?]]; simpl in *; [| |done].
  all: intros _.
  all: match goal with
       |- context [negb (negb ?a && negb ?b)] =>
           destruct (negb a && negb b) eqn:E; simpl; rewrite ?E
       end.
  all: eexists; split; [reflexivity|]; simpl; done.
Qed.

(** C6 (the code at the test's input). In a 1v1 session with both teams
    empty, the join of player 1 into team A succeeds and sets the status
    to InProgress although team B's slot is still empty; and a join that
    fills the last empty slot leaves the status at WaitingForPlayers: the
    update of section 1.3 tests the negation of [check_all_filled]. *)
Theorem join_user_status_update_inverted :
  run (join_user 1 0) fresh_duel = Ok tt ∧
  status (session (after (join_user 1 0) fresh_duel)) = InProgress ∧
  players (team_b (session (after (join_user 1 0) fresh_duel))) !! 0%nat
    = Some Pubkey_default ∧
  run (join_user 2 1) last_slot_open = Ok tt ∧
  check_all_filled (session (after (join_user 2 1) last_slot_open)) = Ok true ∧
  status (session (after (join_user 2 1) last_slot_open)) = WaitingForPlayers.
Proof. repeat split; reflexivity. Qed.

(** C5 (the code at Scenario B and at the test "should prevent same
    player from joining multiple teams"). Player 1 joins team 0 of a new
    3v3 session: the call succeeds, and the inverted status update sets
    InProgress with five slots still empty. Player 1 then asks for team 1,
    or again for team 0: the status check comes first and answers
    InvalidGameState, not PlayerAlreadyJoined; the refused call changes
    nothing. *)
Theorem join_user_duplicate_answers_invalid_game_state :
  status (session scenario_b_created) = WaitingForPlayers ∧
  run (join_user 1 0) scenario_b_created = Ok tt ∧
  players (team_a (session scenario_b_joined)) !! 0%nat = Some 1 ∧
  check_all_filled (session scenario_b_joined) = Ok false ∧
  status (session scenario_b_joined) = InProgress ∧
  run (join_user 1 1) scenario_b_joined = Err (Wager InvalidGameState) ∧
  run (join_user 1 0) scenario_b_joined = Err (Wager InvalidGameState) ∧
  after (join_user 1 1) scenario_b_joined = scenario_b_joined ∧
  after (join_user 1 0) scenario_b_joined = scenario_b_joined.
Proof. repeat split; reflexivity. Qed.

(** ** Settlement *)

Ltac settle_unfold :=
  unfold run, after, distribute_winnings,
    distribute_pay_spawn_earnings, distribute_all_winnings_handler, lift,
    mbind, mret, Mut_bind, Mut_ret, bind, require, get, put, ret, fail,
    raise in *.

(** [distribute_pay_spawn_earnings] borrows the session immutably. *)
Lemma distribute_pay_spawn_earnings_session remaining_accounts w :
  session (after (distribute_pay_spawn_earnings remaining_accounts) w) = session w.
Proof. settle_unfold. by destruct (pay_spawn_loop _ _ _ _ _). Qed.

Lemma distribute_all_winnings_handler_session winning_team w :
  session (after (distribute_all_winnings_handler winning_team) w) = session w.
Proof.
  settle_unfold. destruct (winning_slots _ _); [|done].
  by destruct (winnings_loop _ _ _ _).
Qed.

(** A.2: the status is written once, after the last transfer. *)
Lemma distribute_winnings_session calc w :
  (run (distribute_winnings calc) w = Ok tt →
   status (session w) = Completed ∧
   session (after (distribute_winnings calc) w) = set_status (session w) Distributed) ∧
  (run (distribute_winnings calc) w ≠ Ok tt →
   session (after (distribute_winnings calc) w) = session w).
Proof.
  settle_unfold. simpl.
  destruct (bool_decide _) eqn:Est; simpl; [|done].
  apply bool_decide_eq_true in Est.
  destruct (calculate_total_distribution calc (session w)) as [t|f]; [|done].
  simpl. destruct (t <=? _); simpl; [|done].
  destruct (calc (session w)) as [ds|f]; [|done]. simpl.
  destruct (transfer_all ds [] (bank w)) as [[[]|f] l]; simpl; done.
Qed.

(** C7, amended. The settlement of Appendix A.2, [distribute_winnings],
    makes the transition Completed → Distributed only when it succeeds
    as a whole: after a success the session was Completed and is
    Distributed, after a failure at any point the status is what it was,
    so still Completed. A DistributePaySpawnEarnings call on a Completed
    session leaves the status at Completed, also when it succeeds. *)
Theorem settlement_status_transition :
  (∀ calc w,
     (run (distribute_winnings calc) w = Ok tt →
      status (session w) = Completed ∧
      status (session (after (distribute_winnings calc) w)) = Distributed) ∧
     (run (distribute_winnings calc) w ≠ Ok tt →
      status (session (after (distribute_winnings calc) w)) = status (session w))) ∧
  (∀ remaining_accounts w,
     status (session w) = Completed →
     status (session (after (distribute_pay_spawn_earnings remaining_accounts) w))
       = Completed).
Proof.
  split.
  - intros calc w. destruct (distribute_winnings_session calc w) as [Hok Herr].
    split.
    + intros H. destruct (Hok H) as [Hst ->]. done.
    + intros H. by rewrite (Herr H).
  - intros ra w Hst. by rewrite distribute_pay_spawn_earnings_session.
Qed.

(** C7 as stated fails: on a Completed PayToSpawn session whose vault
    covers every payout, DistributePaySpawnEarnings succeeds and the
    status is still Completed, as the test of the pay-to-spawn flow
    expects. *)
Lemma pay_spawn_success_not_distributed :
  ¬ (run (distribute_pay_spawn_earnings duel_accounts) (pay_spawn_completed 2000)
       = Ok tt →
     status (session (after (distribute_pay_spawn_earnings duel_accounts)
                        (pay_spawn_completed 2000)))
       = Distributed).
Proof. intros H. specialize (H eq_refl). vm_compute in H. discriminate. Qed.

(** C1 (the code at a short vault). Two recipients are owed 1000 each and
    the vault holds 1500. [distribute_pay_spawn_earnings] checks each
    amount, not their sum, and against the balance the vault account had
    when the instruction began: the first check passes and player 1's
    token account is paid; the second check passes as well, 1000 against
    the same 1500, and the token program refuses the transfer from the
    500 that are left. The call fails with the token program's error and
    leaves player 1 paid, player 2 unpaid and the vault at 500. *)
Theorem distribute_pay_spawn_earnings_pays_before_failing :
  let w := pay_spawn_completed 1500 in
  let w' := after (distribute_pay_spawn_earnings duel_accounts) w in
  status (session w) = Completed ∧
  get_all_players (session w) = [1; 2] ∧
  get_kills_and_spawns (session w) 1 = Ok 10 ∧
  get_kills_and_spawns (session w) 2 = Ok 10 ∧
  calculate_earnings 10 (session_bet (session w)) = Ok 1000 ∧
  pay_spawn_plan (session w) duel_accounts = [(101, 1000); (102, 1000)] ∧
  vault_balance (bank w) < total_of (pay_spawn_plan (session w) duel_accounts) ∧
  run (distribute_pay_spawn_earnings duel_accounts) w = Err InsufficientFunds ∧
  balance_of (bank w') 101 = balance_of (bank w) 101 + 1000 ∧
  balance_of (bank w') 102 = balance_of (bank w) 102 ∧
  vault_balance (bank w') = 500.
Proof. repeat split; reflexivity. Qed.

(** *** The ledger under a list of transfers *)

Lemma pay_all_snoc l ds d :
  pay_all l (ds ++ [d]) =
  mkLedger (vault_balance (pay_all l ds) - d.2)
           (credit (balance_of (pay_all l ds)) d.1 d.2).
Proof. unfold pay_all. by rewrite foldl_app. Qed.

Lemma pay_all_cons l d ds :
  pay_all l (d :: ds) =
  pay_all (mkLedger (vault_balance l - d.2) (credit (balance_of l) d.1 d.2)) ds.
Proof. reflexivity. Qed.

Lemma pay_all_balance ds l p :
  balance_of (pay_all l ds) p = balance_of l p + received ds p.
Proof.
  revert l. induction ds as [|[q a] ds IH]; intros l; [simpl; lia|].
  rewrite pay_all_cons, IH. simpl. unfold credit.
  destruct (decide (p = q)) as [->|Hne].
  - rewrite decide_True by done. lia.
  - rewrite decide_False by congruence. lia.
Qed.

Lemma pay_all_vault ds l :
  vault_balance (pay_all l ds) = vault_balance l - total_of ds.
Proof.
  revert l. induction ds as [|[q a] ds IH]; intros l; [simpl; lia|].
  rewrite pay_all_cons, IH. simpl. lia.
Qed.

(** When the batch of A.2 goes through, the ledger has exactly its
    transfers applied. *)
Lemma transfer_all_ok ds succ l l' :
  transfer_all ds succ l = (Ok tt, l') → l' = pay_all l ds.
Proof.
  revert succ l. induction ds as [|[p a] ds IH]; intros succ l H; simpl in H.
  - unfold ret in H. by injection H as <-.
  - unfold transfer_tokens, transfer_from_vault in H.
    destruct (vault_balance l <? a).
    + unfold mbind, Mut_bind, bind, raise in H.
      by destruct (rollback_transfers succ l) as [[[]|f] l0].
    + apply IH in H. by rewrite pay_all_cons.
Qed.

Lemma total_of_nonneg ds : Forall (λ d, 0 ≤ d.2) ds → 0 ≤ total_of ds.
Proof. induction 1 as [|[??] ? ? ?]; simpl in *; lia. Qed.

Lemma received_nonneg ds p : Forall (λ d, 0 ≤ d.2) ds → 0 ≤ received ds p.
Proof. induction 1 as [|[??] ? ? ?]; simpl in *; [lia|]. case_decide; lia. Qed.

(** A batch whose total the vault covers never fails midway. *)
Lemma transfer_all_covered ds succ l :
  Forall (λ d, 0 ≤ d.2) ds → total_of ds ≤ vault_balance l →
  transfer_all ds succ l = (Ok tt, pay_all l ds).
Proof.
  revert succ l. induction ds as [|[p a] ds IH]; intros succ l Hpos Hle; [done|].
  apply Forall_cons in Hpos as [Ha Hpos].
  pose proof (total_of_nonneg ds Hpos) as Htot.
  rewrite pay_all_cons. simpl in Ha, Hle |- *.
  unfold transfer_tokens, transfer_from_vault.
  destruct (vault_balance l <? a) eqn:E; [apply Z.ltb_lt in E; lia|].
  apply IH; [done|simpl; lia].
Qed.

(** Returning a list of received amounts to the vault. *)
Lemma rollback_transfers_spec succ l :
  Forall (λ d, 0 ≤ d.2) succ →
  (∀ p, received succ p ≤ balance_of l p) →
  ∃ l', rollback_transfers succ l = (Ok tt, l') ∧
        vault_balance l' = vault_balance l + total_of succ ∧
        ∀ p, balance_of l' p = balance_of l p - received succ p.
Proof.
  revert l. induction succ as [|[q a] succ IH]; intros l Hpos Hle.
  - exists l. simpl. repeat split; [lia|intros; lia].
  - apply Forall_cons in Hpos as [Ha Hpos]. simpl in *.
    pose proof (λ p, received_nonneg succ p Hpos) as Hrec.
    unfold mbind, Mut_bind, bind, token_return, transfer_to_vault.
    pose proof (Hle q) as Hq. rewrite decide_True in Hq by done.
    pose proof (Hrec q).
    destruct (balance_of l q <? a) eqn:E; [apply Z.ltb_lt in E; lia|].
    destruct (IH (mkLedger (vault_balance l + a) (credit (balance_of l) q (- a))))
      as (l' & Hrun & Hv & Hb); [done| |].
    + intros p. simpl. unfold credit. specialize (Hle p).
      destruct (decide (p = q)) as [->|Hne].
      * rewrite decide_True in Hle by done. lia.
      * rewrite decide_False in Hle by congruence. lia.
    + exists l'. rewrite Hrun. simpl in *. split; [done|]. split; [lia|].
      intros p. rewrite Hb. unfold credit.
      destruct (decide (p = q)) as [->|Hne].
      * rewrite decide_True by done. lia.
      * rewrite decide_False by congruence. lia.
Qed.

Lemma received_app ds ds' p :
  received (ds ++ ds') p = received ds p + received ds' p.
Proof.
  induction ds as [|[q a] ds IH]; simpl; [lia|]. case_decide; lia.
Qed.


(** The loop of A.2 is all-or-nothing on the ledger: when it fails, the
    rollback has returned every transfer made so far. [l0] is the ledger
    at the start of the batch and [succ] the transfers made since. *)
Lemma transfer_all_rollback ds succ l0 l f l' :
  ledger_valid l0 → Forall (λ d, 0 ≤ d.2) succ → Forall (λ d, 0 ≤ d.2) ds →
  l = pay_all l0 succ →
  transfer_all ds succ l = (Err f, l') →
  same_balances l' l0.
Proof.
  revert succ l. induction ds as [|[p a] ds IH];
    intros succ l Hval Hsucc Hds -> Hrun; [done|].
  apply Forall_cons in Hds as [Ha Hds]. simpl in *.
  unfold transfer_tokens, transfer_from_vault in Hrun.
  destruct (vault_balance (pay_all l0 succ) <? a).
  - destruct (rollback_transfers_spec succ (pay_all l0 succ) Hsucc)
      as (l1 & Hr & Hv & Hb).
    { intros q. rewrite pay_all_balance. destruct Hval as [_ Hq].
      specialize (Hq q). lia. }
    unfold mbind, Mut_bind, bind, raise in Hrun. rewrite Hr in Hrun.
    injection Hrun as _ <-. split.
    + rewrite Hv, pay_all_vault. lia.
    + intros q. rewrite Hb, pay_all_balance. lia.
  - eapply (IH (succ ++ [(p, a)])); [done| |done| |exact Hrun].
    + apply Forall_app. split; [done|]. by apply Forall_singleton.
    + by rewrite pay_all_snoc.
Qed.

(** *** Appendix A.2 on the ledger *)

(** The vault is checked against the sum of all payouts before the first
    transfer: a vault that does not cover the total is never touched. *)
Lemma distribute_winnings_refuses_short_vault calc w ds :
  status (session w) = Completed →
  calc (session w) = Ok ds →
  vault_balance (bank w) < total_of ds →
  after (distribute_winnings calc) w = w ∧
  run (distribute_winnings calc) w =
    Err (Wager (if total_of ds <=? u64_MAX
                then InsufficientVaultBalance else ArithmeticError)).
Proof.
  intros Hst Hds Hlt. settle_unfold. unfold calculate_total_distribution. simpl.
  rewrite bool_decide_eq_true_2 by done. simpl. rewrite Hds.
  destruct (total_of ds <=? u64_MAX); simpl; [|done].
  destruct (total_of ds <=? vault_balance (bank w)) eqn:E;
    [apply Z.leb_le in E; lia|done].
Qed.

(** Either every transfer of the batch is applied and the session is
    Distributed, or the ledger answers every `balance_of` as before and
    the session is untouched. *)
Lemma distribute_winnings_all_or_nothing calc w ds :
  ledger_valid (bank w) →
  calc (session w) = Ok ds → Forall (λ d, 0 ≤ d.2) ds →
  (run (distribute_winnings calc) w = Ok tt ∧
   bank (after (distribute_winnings calc) w) = pay_all (bank w) ds ∧
   session (after (distribute_winnings calc) w) = set_status (session w) Distributed)
  ∨
  (run (distribute_winnings calc) w ≠ Ok tt ∧
   same_balances (bank (after (distribute_winnings calc) w)) (bank w) ∧
   session (after (distribute_winnings calc) w) = session w).
Proof.
  intros Hval Hds Hpos. settle_unfold. unfold calculate_total_distribution.
  simpl. rewrite Hds.
  destruct (bool_decide _); simpl; [|by right].
  destruct (total_of ds <=? u64_MAX); simpl; [|by right].
  destruct (total_of ds <=? _); simpl; [|by right].
  destruct (transfer_all ds [] (bank w)) as [[[]|f] l] eqn:Hrun; simpl.
  - left. apply transfer_all_ok in Hrun. by subst.
  - right. split; [done|]. split; [|done].
    by eapply (transfer_all_rollback ds [] (bank w)).
Qed.

(** *** WinnerTakesAll *)


Lemma winning_slots_team g winning_team t :
  team_of g winning_team = Some t →
  winning_slots g winning_team = Ok (take (players_per_team (game_mode g)) (players t)).
Proof. unfold winning_slots. by intros ->. Qed.

(** The handler's loop pays every slot it visits `session_bet * 2`. *)
Lemma winnings_loop_ok g amount winners l l' :
  winnings_loop g amount winners l = (Ok tt, l') →
  l' = pay_all l ((λ p, (p, session_bet g * 2)) <$> winners).
Proof.
  revert l. induction winners as [|p winners IH]; intros l H; simpl in H.
  - unfold ret in H. by injection H as <-.
  - unfold mbind, Mut_bind, bind, mul_checked, require, token_transfer,
      transfer_from_vault, ret, fail, panic in H.
    destruct (session_bet g * 2 <=? u64_MAX); [|done].
    destruct (session_bet g * 2 <=? amount); [|done].
    destruct (vault_balance l <? session_bet g * 2); [done|].
    apply IH in H. rewrite H. by rewrite fmap_cons, pay_all_cons.
Qed.

Lemma distribute_all_winnings_handler_ok winning_team w t :
  team_of (session w) winning_team = Some t →
  run (distribute_all_winnings_handler winning_team) w = Ok tt →
  bank (after (distribute_all_winnings_handler winning_team) w) =
    pay_all (bank w)
      ((λ p, (p, session_bet (session w) * 2)) <$>
         take (players_per_team (game_mode (session w))) (players t)).
Proof.
  intros Ht. settle_unfold. rewrite (winning_slots_team _ _ _ Ht).
  destruct (winnings_loop _ _ _ _) as [[[]|f] l] eqn:Hl; simpl; [|done].
  intros _. by apply winnings_loop_ok in Hl.
Qed.

(** C4 (the code at Scenario A). Run call by call from a new 1v1
    WinnerTakesAll session with a bet of 1000, player 1's join succeeds
    and sets InProgress, player 2's join is therefore refused with
    InvalidGameState and the vault holds one stake; after the kill and the
    mark as Completed, [distribute_all_winnings_handler] checks 2000
    against a vault of 1000 and fails with InsufficientVaultBalance: the
    winner receives nothing, the vault stays at 1000 and the status at
    Completed. On a session that does hold both stakes the handler
    succeeds, pays the winner 2000 and empties the vault, and the status
    is still Completed. In general a successful call has made one transfer
    of `session_bet * 2` for each of the slots `0..players_per_team` of
    the winning team, and no call writes anything to the session. *)
Theorem distribute_all_winnings_handler_scenario_a :
  (let joined := after (join_user 1 0) fresh_duel in
   let w := scenario_a_run in
   let w' := after (distribute_all_winnings_handler 0) w in
   run (join_user 1 0) fresh_duel = Ok tt ∧
   status (session joined) = InProgress ∧
   run (join_user 2 1) joined = Err (Wager InvalidGameState) ∧
   outcome (add_kill 0 0 1 0) (session scenario_a_joined) = Ok tt ∧
   status (session w) = Completed ∧
   session_bet (session w) = 1000 ∧
   vault_balance (bank w) = 1000 ∧
   run (distribute_all_winnings_handler 0) w
     = Err (Wager InsufficientVaultBalance) ∧
   balance_of (bank w') 1 = balance_of (bank w) 1 ∧
   vault_balance (bank w') = 1000 ∧
   status (session w') = Completed) ∧
  (let w := scenario_a_completed in
   let w' := after (distribute_all_winnings_handler 0) w in
   status (session w) = Completed ∧
   vault_balance (bank w) = 2000 ∧
   run (distribute_all_winnings_handler 0) w = Ok tt ∧
   balance_of (bank w') 1 = balance_of (bank w) 1 + 2000 ∧
   vault_balance (bank w') = 0 ∧
   status (session w') = Completed) ∧
  (∀ winning_team w t,
     team_of (session w) winning_team = Some t →
     run (distribute_all_winnings_handler winning_team) w = Ok tt →
     bank (after (distribute_all_winnings_handler winning_team) w) =
       pay_all (bank w)
         ((λ p, (p, session_bet (session w) * 2)) <$>
            take (players_per_team (game_mode (session w))) (players t))) ∧
  (∀ winning_team w,
     session (after (distribute_all_winnings_handler winning_team) w) = session w).
Proof.
  split; [by repeat split|]. split; [by repeat split|].
  split; [exact distribute_all_winnings_handler_ok|].
  exact distribute_all_winnings_handler_session.
Qed.

(** *** PayToSpawn *)

Lemma calculate_earnings_spec ks bet :
  calculate_earnings ks bet =
    if ks * bet <=? u64_MAX then Ok ((ks * bet) `div` 10)
    else Err (Wager ArithmeticError).
Proof.
  unfold calculate_earnings, checked_mul, checked_div.
  by destruct (ks * bet <=? u64_MAX).
Qed.








(** One round of the loop, check by check. *)
Lemma pay_spawn_loop_cons g ra amount p ps l :
  pay_spawn_loop g ra amount (p :: ps) l =
    match get_kills_and_spawns g p with
    | Err f => (Err f, l)
    | Ok s =>
        if s =? 0 then pay_spawn_loop g ra amount ps l
        else if s * session_bet g <=? u64_MAX then
          match player_token_account ra p with
          | Err f => (Err f, l)
          | Ok token_account =>
              let e := (s * session_bet g) `div` 10 in
              if 0 <? e then
                if e <=? amount then
                  if vault_balance l <? e then (Err InsufficientFunds, l)
                  else pay_spawn_loop g ra amount ps
                         (mkLedger (vault_balance l - e)
                                   (credit (balance_of l) token_account e))
                else (Err (Wager InsufficientVaultBalance), l)
              else pay_spawn_loop g ra amount ps l
          end
        else (Err (Wager ArithmeticError), l)
    end.
Proof.
  simpl. unfold mbind, Mut_bind, bind, lift, require, token_transfer,
    transfer_from_vault, ret, fail.
  destruct (get_kills_and_spawns g p) as [s|f]; [|done].
  destruct (s =? 0); [done|]. rewrite calculate_earnings_spec.
  destruct (s * session_bet g <=? u64_MAX); [|done].
  destruct (player_token_account ra p) as [tok|f]; [|done]. simpl.
  destruct (0 <? _); [|done]. destruct (_ <=? amount); [|done].
  by destruct (vault_balance l <? _).
Qed.

Lemma pay_all_app l ds ds' : pay_all l (ds ++ ds') = pay_all (pay_all l ds) ds'.
Proof. unfold pay_all. by rewrite foldl_app. Qed.

Lemma pay_spawn_transfers_cons g ra p ps :
  pay_spawn_transfers g ra (p :: ps)
    = earnings_transfer g ra p ++ pay_spawn_transfers g ra ps.
Proof. reflexivity. Qed.

(** A player whose payout is zero asks for no transfer. *)
Lemma earnings_transfer_zero g ra p s :
  get_kills_and_spawns g p = Ok s → ¬ 0 < (s * session_bet g) `div` 10 →
  earnings_transfer g ra p = [].
Proof.
  intros Es He. unfold earnings_transfer, earnings_of. rewrite Es.
  destruct (player_token_account ra p); [|done].
  by destruct (Z.ltb_spec 0 ((s * session_bet g) `div` 10)).
Qed.

Lemma earnings_transfer_paid g ra p s token_account :
  get_kills_and_spawns g p = Ok s →
  player_token_account ra p = Ok token_account →
  0 < (s * session_bet g) `div` 10 →
  earnings_transfer g ra p = [(token_account, (s * session_bet g) `div` 10)].
Proof.
  intros Es Et He. unfold earnings_transfer, earnings_of. rewrite Es, Et.
  by destruct (Z.ltb_spec 0 ((s * session_bet g) `div` 10)); [|lia].
Qed.










(** ** The uniqueness invariant over the state machine *)

Lemma record_kill_players kt ki g :
  players (team_a (exec (record_kill kt ki) g)) = players (team_a g) ∧
  players (team_b (exec (record_kill kt ki) g)) = players (team_b g).
Proof.
  destruct kt as [|[|?]]; simpl; [| |done].
  all: mut_unfold; simpl; repeat (case_match; mut_unfold; simplify_eq/=); done.
Qed.

Lemma take_spawn_players vt vi g :
  players (team_a (exec (take_spawn vt vi) g)) = players (team_a g) ∧
  players (team_b (exec (take_spawn vt vi) g)) = players (team_b g).
Proof.
  destruct vt as [|[|?]]; simpl; [| |done].
  all: mut_unfold; simpl; repeat (case_match; mut_unfold; simplify_eq/=); done.
Qed.

Lemma add_kill_players kt ki vt vi g :
  players (team_a (exec (add_kill kt ki vt vi) g)) = players (team_a g) ∧
  players (team_b (exec (add_kill kt ki vt vi) g)) = players (team_b g).
Proof.
  unfold exec. rewrite add_kill_run.
  destruct (ki <? MAX_PLAYERS_PER_TEAM)%nat, (vi <? MAX_PLAYERS_PER_TEAM)%nat;
    try done.
  pose proof (record_kill_players kt ki g) as Hr. unfold exec in Hr.
  destruct (record_kill kt ki g) as [[[]|f] g1]; simpl in *; [|done].
  pose proof (take_spawn_players vt vi g1) as Ht. unfold exec in Ht.
  destruct (take_spawn vt vi g1) as [[[]|f] g2]; simpl in *;
    destruct Hr as [<- <-]; done.
Qed.

Lemma add_spawns_players team i g :
  players (team_a (exec (add_spawns team i) g)) = players (team_a g) ∧
  players (team_b (exec (add_spawns team i) g)) = players (team_b g).
Proof.
  unfold add_spawns. destruct team as [|[|?]]; mut_unfold; simpl.
  all: repeat (case_match; mut_unfold; simplify_eq/=); done.
Qed.

Lemma unique_players_same_slots g g' :
  players (team_a g') = players (team_a g) →
  players (team_b g') = players (team_b g) →
  unique_players g → unique_players g'.
Proof. unfold unique_players. by intros -> ->. Qed.

Lemma step_unique w w' :
  step w w' → unique_players (session w) → unique_players (session w').
Proof.
  destruct 1; intros Hu.
  - by apply join_user_unique.
  - destruct (add_kill_players kt ki vt vi (session w)).
    by eapply unique_players_same_slots.
  - destruct (add_spawns_players team i (session w)).
    by eapply unique_players_same_slots.
  - done.
  - by rewrite distribute_pay_spawn_earnings_session.
  - by rewrite distribute_all_winnings_handler_session.
  - destruct (distribute_winnings_session calculate_distributions w)
      as [Hok Herr].
    destruct (run (distribute_winnings _) w) as [[]|f] eqn:Hr.
    + destruct (Hok eq_refl) as [_ ->]. done.
    + by rewrite Herr.
Qed.

Lemma new_session_unique id auth bet m :
  unique_players (new_session id auth bet m).
Proof. unfold unique_players. simpl. vm_compute. constructor. Qed.

(** In every state reachable from a new session by any sequence of calls,
    an identity holds at most one slot across both teams. *)
Lemma reachable_unique_players w : reachable w → unique_players (session w).
Proof.
  intros (id & auth & bet & m & l & Hrtc).
  pose proof (new_session_unique id auth bet m) as Hinit.
  remember (mkWorld (new_session id auth bet m) l) as w0 eqn:Hw0.
  assert (unique_players (session w0)) as Hu by (by subst w0).
  clear Hw0 Hinit. induction Hrtc as [|x y z Hstep _ IH]; [done|].
  apply IH. by eapply step_unique.
Qed.

(** * Further properties *)

(** ** [add_kill] *)


Lemma record_kill_ok_iff kt ki g :
  outcome (record_kill kt ki) g = Ok tt ↔
  ∃ k, kills_of g kt ki = Some k ∧ k < u32_MAX.
Proof.
  split.
  - destruct kt as [|[|?]]; unfold kills_of; simpl; [| |done].
    all: mut_unfold; simpl.
    all: destruct (player_kills _ !! ki) as [k|] eqn:Hk; simpl; [|done].
    all: destruct (k <? u32_MAX) eqn:E; simpl; [|done].
    all: intros _; exists k; split; [done|by apply Z.ltb_lt].
  - intros (k & Hk & Hlt). by destruct (record_kill_spec kt ki g k Hk) as [[? _] _].
Qed.

Lemma take_spawn_ok_iff vt vi g :
  outcome (take_spawn vt vi) g = Ok tt ↔
  ∃ n, spawns_of g vt vi = Some n ∧ 0 < n.
Proof.
  split.
  - destruct vt as [|[|?]]; unfold spawns_of; simpl; [| |done].
    all: mut_unfold; simpl.
    all: destruct (player_spawns _ !! vi) as [n|] eqn:Hn; simpl; [|done].
    all: destruct (0 <? n) eqn:E; simpl; [|done].
    all: intros _; exists n; split; [done|by apply Z.ltb_lt].
  - intros (n & Hn & Hlt). by destruct (take_spawn_spec vt vi g n Hn) as [_ [? _]].
Qed.

(** X3. [add_kill] returns Ok exactly when both indices are below
    MAX_PLAYERS_PER_TEAM, the killer's slot exists with a counter below
    u32::MAX and the victim's slot exists with a positive spawn counter. *)
Theorem add_kill_succeeds_iff kt ki vt vi g :
  outcome (add_kill kt ki vt vi) g = Ok tt ↔
  (ki < MAX_PLAYERS_PER_TEAM)%nat ∧ (vi < MAX_PLAYERS_PER_TEAM)%nat ∧
  (∃ k, kills_of g kt ki = Some k ∧ k < u32_MAX) ∧
  (∃ n, spawns_of g vt vi = Some n ∧ 0 < n).
Proof.
  unfold outcome. rewrite add_kill_run.
  rewrite <-record_kill_ok_iff, <-take_spawn_ok_iff. unfold outcome.
  pose proof (record_kill_spawns kt ki g vt vi) as Hsp. unfold exec in Hsp.
  destruct (ki <? MAX_PLAYERS_PER_TEAM)%nat eqn:Eki;
    [apply Nat.ltb_lt in Eki | apply Nat.ltb_ge in Eki; split; [done | lia]].
  destruct (vi <? MAX_PLAYERS_PER_TEAM)%nat eqn:Evi;
    [apply Nat.ltb_lt in Evi | apply Nat.ltb_ge in Evi; split; [done | lia]].
  destruct (record_kill kt ki g) as [[[]|f] g1] eqn:Hrk; simpl in *;
    [|split; [done | by intros (_ & _ & ? & _)]].
  assert ((take_spawn vt vi g1).1 = Ok tt ↔ (take_spawn vt vi g).1 = Ok tt) as Hiff.
  { pose proof (take_spawn_ok_iff vt vi g1) as H1.
    pose proof (take_spawn_ok_iff vt vi g) as H2.
    unfold outcome in *. rewrite H1, H2, Hsp. done. }
  destruct (take_spawn vt vi g1) as [[[]|f] g2] eqn:Hts; simpl in *.
  - split; [|done]. intros _. repeat split; [done|done|]. by apply Hiff.
  - split; [done|]. intros (_ & _ & _ & H). by apply Hiff in H.
Qed.

Lemma add_kill_succeeds_iff_witness :
  outcome (add_kill 0 0 1 0) (duel PayToSpawnOneVsOne 1000 InProgress) = Ok tt.
Proof.
  apply (proj2 (add_kill_succeeds_iff 0 0 1 0 (duel PayToSpawnOneVsOne 1000 InProgress))).
  repeat split; [vm_compute; lia | vm_compute; lia | |].
  - exists 0. split; reflexivity.
  - exists 10. split; reflexivity.
Defined.





Lemma record_kill_kills_other kt ki g t j :
  (t ≠ kt ∨ j ≠ ki) →
  kills_of (exec (record_kill kt ki) g) t j = kills_of g t j.
Proof.
  intros Hne. destruct kt as [|[|?]]; simpl; [| |done].
  all: mut_unfold; simpl; repeat (case_match; mut_unfold; simplify_eq/=); try done.
  all: destruct t as [|[|?]]; try done; unfold kills_of; simpl.
  all: apply list_lookup_insert_ne; intros ->; by destruct Hne.
Qed.

Lemma take_spawn_spawns_other vt vi g t j :
  (t ≠ vt ∨ j ≠ vi) →
  spawns_of (exec (take_spawn vt vi) g) t j = spawns_of g t j.
Proof.
  intros Hne. destruct vt as [|[|?]]; simpl; [| |done].
  all: mut_unfold; simpl; repeat (case_match; mut_unfold; simplify_eq/=); try done.
  all: destruct t as [|[|?]]; try done; unfold spawns_of; simpl.
  all: apply list_lookup_insert_ne; intros ->; by destruct Hne.
Qed.

Lemma record_kill_rest kt ki g :
  status (exec (record_kill kt ki) g) = status g ∧
  session_bet (exec (record_kill kt ki) g) = session_bet g.
Proof.
  destruct kt as [|[|?]]; simpl; [| |done].
  all: mut_unfold; simpl; repeat (case_match; mut_unfold; simplify_eq/=); done.
Qed.

Lemma take_spawn_rest vt vi g :
  status (exec (take_spawn vt vi) g) = status g ∧
  session_bet (exec (take_spawn vt vi) g) = session_bet g.
Proof.
  destruct vt as [|[|?]]; simpl; [| |done].
  all: mut_unfold; simpl; repeat (case_match; mut_unfold; simplify_eq/=); done.
Qed.

(** [add_kill] as the composition of its two halves on the session. *)
Lemma add_kill_exec kt ki vt vi g :
  exec (add_kill kt ki vt vi) g = g ∨
  exec (add_kill kt ki vt vi) g = exec (record_kill kt ki) g ∨
  exec (add_kill kt ki vt vi) g
    = exec (take_spawn vt vi) (exec (record_kill kt ki) g).
Proof.
  unfold exec. rewrite add_kill_run.
  destruct (ki <? MAX_PLAYERS_PER_TEAM)%nat; [|by left].
  destruct (vi <? MAX_PLAYERS_PER_TEAM)%nat; [|by left].
  destruct (record_kill kt ki g) as [[[]|f] g1]; simpl; [|by right; left].
  right; right. by destruct (take_spawn vt vi g1) as [[[]|f] g2].
Qed.

(** X2. Whatever its outcome, [add_kill] writes at most two counters: every
    kill counter other than the killer's and every spawn counter other
    than the victim's is as before, and so are the players of both teams,
    the status and the bet. *)
Theorem add_kill_frame kt ki vt vi g :
  (∀ t j, t ≠ kt ∨ j ≠ ki →
          kills_of (exec (add_kill kt ki vt vi) g) t j = kills_of g t j) ∧
  (∀ t j, t ≠ vt ∨ j ≠ vi →
          spawns_of (exec (add_kill kt ki vt vi) g) t j = spawns_of g t j) ∧
  players (team_a (exec (add_kill kt ki vt vi) g)) = players (team_a g) ∧
  players (team_b (exec (add_kill kt ki vt vi) g)) = players (team_b g) ∧
  status (exec (add_kill kt ki vt vi) g) = status g ∧
  session_bet (exec (add_kill kt ki vt vi) g) = session_bet g.
Proof.
  destruct (add_kill_players kt ki vt vi g) as [Hpa Hpb].
  split; [|split; [|split; [done|split; [done|]]]].
  - intros t j Hne.
    destruct (add_kill_exec kt ki vt vi g) as [-> | [-> | ->]]; [done| |].
    + by apply record_kill_kills_other.
    + rewrite take_spawn_kills. by apply record_kill_kills_other.
  - intros t j Hne.
    destruct (add_kill_exec kt ki vt vi g) as [-> | [-> | ->]]; [done| |].
    + apply record_kill_spawns.
    + rewrite take_spawn_spawns_other by done. apply record_kill_spawns.
  - destruct (record_kill_rest kt ki g) as [Hs Hb].
    destruct (take_spawn_rest vt vi (exec (record_kill kt ki) g)) as [Hs' Hb'].
    destruct (add_kill_exec kt ki vt vi g) as [-> | [-> | ->]]; [done|done|].
    split; congruence.
Qed.

Lemma add_kill_frame_witness :
  kills_of (exec (add_kill 0 0 1 0) (duel PayToSpawnOneVsOne 1000 InProgress)) 1 0
    = kills_of (duel PayToSpawnOneVsOne 1000 InProgress) 1 0.
Proof.
  apply (proj1 (add_kill_frame 0 0 1 0 (duel PayToSpawnOneVsOne 1000 InProgress))).
  left. discriminate.
Defined.

(** X4. The decrement as audited and the decrement behind its `require!`
    do the same on a positive spawn counter; on a counter of zero the
    audited one aborts on the subtraction where the fixed one returns
    PlayerHasNoSpawns, and both leave the session as it was. *)
Theorem take_spawn_original_underflow vt vi g n :
  spawns_of g vt vi = Some n →
  (0 < n → take_spawn_original vt vi g = take_spawn vt vi g) ∧
  (n = 0 → take_spawn_original vt vi g = (Err Panic, g) ∧
           take_spawn vt vi g = (Err (Wager PlayerHasNoSpawns), g)).
Proof.
  destruct vt as [|[|?]]; unfold spawns_of; simpl; intros Hn; [| |done].
  all: unfold take_spawn_original; mut_unfold; simpl; rewrite Hn; simpl.
  all: split; [intros Hpos | intros ->; done].
  all: by destruct (0 <? n) eqn:E; [|apply Z.ltb_ge in E; lia].
Qed.

Lemma take_spawn_original_underflow_witness :
  take_spawn_original 1 0 scenario_c_eliminated = (Err Panic, scenario_c_eliminated).
Proof.
  apply (take_spawn_original_underflow 1 0 scenario_c_eliminated 0 eq_refl).
  reflexivity.
Defined.

Lemma add_kill_succeeds_iff_aux kt ki vt vi g :
  (ki < MAX_PLAYERS_PER_TEAM)%nat → (vi < MAX_PLAYERS_PER_TEAM)%nat →
  (∃ k, kills_of g kt ki = Some k ∧ k < u32_MAX) →
  (∃ n, spawns_of g vt vi = Some n ∧ 0 < n) →
  outcome (add_kill kt ki vt vi) g = Ok tt.
Proof.
  intros Hki Hvi (k & Hk & Hlt) (n & Hn & Hpos).
  unfold outcome. rewrite add_kill_run, !nat_ltb_true by done.
  destruct (record_kill_spec kt ki g k Hk) as [Hok _].
  destruct (Hok Hlt) as [Ho _]. unfold outcome in Ho.
  pose proof (record_kill_spawns kt ki g vt vi) as Hsp. unfold exec in Hsp.
  rewrite Hn in Hsp.
  destruct (record_kill kt ki g) as [[[]|f] g1]; simpl in *; [|done].
  destruct (take_spawn_spec vt vi g1 n Hsp) as [_ Hp].
  destruct (Hp Hpos) as [Ho' _]. unfold outcome in Ho'.
  by destruct (take_spawn vt vi g1) as [[[]|f] g2].
Qed.

(** The session after [m] calls of the same [add_kill]. *)
Lemma add_kill_iter_counters kt ki vt vi g k s (m : nat) :
  (ki < MAX_PLAYERS_PER_TEAM)%nat → (vi < MAX_PLAYERS_PER_TEAM)%nat →
  kills_of g kt ki = Some k → spawns_of g vt vi = Some s →
  k + Z.of_nat m ≤ u32_MAX → Z.of_nat m ≤ s →
  kills_of (Nat.iter m (exec (add_kill kt ki vt vi)) g) kt ki
    = Some (k + Z.of_nat m) ∧
  spawns_of (Nat.iter m (exec (add_kill kt ki vt vi)) g) vt vi
    = Some (s - Z.of_nat m).
Proof.
  intros Hki Hvi Hk Hs. induction m as [|m IH]; intros Hkm Hsm.
  { simpl. rewrite Hk, Hs. split; f_equal; lia. }
  destruct IH as [IHk IHs]; [lia|lia|].
  set (g' := Nat.iter m (exec (add_kill kt ki vt vi)) g) in *.
  change (Nat.iter (S m) (exec (add_kill kt ki vt vi)) g)
    with (exec (add_kill kt ki vt vi) g').
  unfold exec. rewrite add_kill_run, !nat_ltb_true by done.
  destruct (record_kill_spec kt ki g' _ IHk) as [Hok _].
  destruct Hok as [Ho Hk']; [lia|]. unfold outcome, exec in Ho, Hk'.
  pose proof (record_kill_spawns kt ki g' vt vi) as Hsp. unfold exec in Hsp.
  rewrite IHs in Hsp.
  destruct (record_kill kt ki g') as [[[]|f] g1]; simpl in *; [|done].
  destruct (take_spawn_spec vt vi g1 _ Hsp) as [_ Hpos].
  destruct Hpos as [Ho' Hs']; [lia|]. unfold outcome, exec in Ho', Hs'.
  pose proof (take_spawn_kills vt vi g1 kt ki) as Hkk. unfold exec in Hkk.
  destruct (take_spawn vt vi g1) as [[[]|f] g2]; simpl in *; [|done].
  rewrite Hkk, Hk', Hs'. split; f_equal; lia.
Qed.

(** X5. A victim with [s] spawns can be killed exactly [s] times: as long
    as the killer's counter has room, each of the first [s] calls of
    [add_kill] succeeds, after them the killer has [s] more kills and the
    victim no spawn, and the next call returns PlayerHasNoSpawns. *)
Theorem add_kill_until_eliminated kt ki vt vi g k (s : nat) :
  (ki < MAX_PLAYERS_PER_TEAM)%nat → (vi < MAX_PLAYERS_PER_TEAM)%nat →
  kills_of g kt ki = Some k → spawns_of g vt vi = Some (Z.of_nat s) →
  k + Z.of_nat s < u32_MAX →
  (∀ m, (m < s)%nat →
        outcome (add_kill kt ki vt vi)
                (Nat.iter m (exec (add_kill kt ki vt vi)) g) = Ok tt) ∧
  kills_of (Nat.iter s (exec (add_kill kt ki vt vi)) g) kt ki
    = Some (k + Z.of_nat s) ∧
  spawns_of (Nat.iter s (exec (add_kill kt ki vt vi)) g) vt vi = Some 0 ∧
  outcome (add_kill kt ki vt vi) (Nat.iter s (exec (add_kill kt ki vt vi)) g)
    = Err (Wager PlayerHasNoSpawns).
Proof.
  intros Hki Hvi Hk Hs Hroom.
  destruct (add_kill_iter_counters kt ki vt vi g k _ s Hki Hvi Hk Hs)
    as [Hks Hss]; [lia|lia|].
  rewrite Z.sub_diag in Hss.
  split; [|split; [done|split; [done|]]].
  - intros m Hm.
    destruct (add_kill_iter_counters kt ki vt vi g k _ m Hki Hvi Hk Hs)
      as [Hkm Hsm]; [lia|lia|].
    apply add_kill_succeeds_iff_aux; [done|done| |].
    + eexists. split; [exact Hkm|lia].
    + eexists. split; [exact Hsm|lia].
  - by destruct (add_kill_no_spawns_increments kt ki vt vi _ _ Hki Hvi Hks
                   ltac:(lia) Hss) as [? _].
Qed.

Lemma add_kill_until_eliminated_witness :
  outcome (add_kill 0 0 1 0)
          (Nat.iter 10 (exec (add_kill 0 0 1 0)) (duel PayToSpawnOneVsOne 1000 InProgress))
    = Err (Wager PlayerHasNoSpawns).
Proof.
  refine (proj2 (proj2 (proj2
    (add_kill_until_eliminated 0 0 1 0 (duel PayToSpawnOneVsOne 1000 InProgress)
       0 10 _ _ eq_refl eq_refl _)))); vm_compute; try lia; reflexivity.
Defined.

(** ** [add_spawns] *)

Ltac spawns_unfold :=
  unfold add_spawns, add_spawns_original; mut_unfold.

(** X6. [add_spawns] returns Ok exactly when the named slot exists and its
    counter plus `spawns_per_purchase` still fits `u16`; then that counter
    has grown by `spawns_per_purchase` and every other spawn counter and
    every kill counter is as before. When it does not return Ok the
    session is untouched. *)
Theorem add_spawns_total team i g :
  (outcome (add_spawns team i) g = Ok tt ↔
   ∃ n, spawns_of g team i = Some n ∧ n + spawns_per_purchase g ≤ u16_MAX) ∧
  (outcome (add_spawns team i) g = Ok tt →
   (∀ n, spawns_of g team i = Some n →
         spawns_of (exec (add_spawns team i) g) team i
           = Some (n + spawns_per_purchase g)) ∧
   (∀ t j, t ≠ team ∨ j ≠ i →
           spawns_of (exec (add_spawns team i) g) t j = spawns_of g t j) ∧
   (∀ t j, kills_of (exec (add_spawns team i) g) t j = kills_of g t j)) ∧
  (outcome (add_spawns team i) g ≠ Ok tt → exec (add_spawns team i) g = g).
Proof.
  destruct team as [|[|team']]; unfold spawns_of; simpl.
  3: { spawns_unfold; simpl. split; [|done].
       split; [done|]. by intros (x & ? & _). }
  all: spawns_unfold; simpl.
  all: destruct (player_spawns _ !! i) as [n|] eqn:Hn; simpl;
    [|split; [split; [done|by intros (? & ? & _)]|done]].
  all: destruct (n + spawns_per_purchase g <=? u16_MAX) eqn:E; simpl;
    [apply Z.leb_le in E | apply Z.leb_gt in E;
     split; [split; [done|intros (? & [= <-] & ?); lia]|done]].
  all: split; [split; [by eauto|done]|split; [|done]].
  all: intros _; split; [|split].
  all: try (intros ? [= <-]; apply list_lookup_insert_eq; by eapply lookup_lt_Some).
  all: try (intros t j Hne; destruct t as [|[|?]]; try done; simpl;
            apply list_lookup_insert_ne; intros ->; by destruct Hne).
  all: by intros [|[|?]] j.
Qed.

Lemma add_spawns_total_witness :
  spawns_of (exec (add_spawns 0 0) (duel PayToSpawnOneVsOne 1000 InProgress)) 0 0
    = Some (10 + 10).
Proof.
  destruct (add_spawns_total 0 0 (duel PayToSpawnOneVsOne 1000 InProgress))
    as (_ & Hok & _).
  destruct (Hok eq_refl) as (Hn & _). apply Hn. reflexivity.
Defined.

(** X7. The audited [add_spawns] with its literal 10 is the fixed one on
    every session whose `spawns_per_purchase` is 10, and on any session
    the two differ only by the increment: the audited one adds 10 where
    the fixed one adds the configured amount. *)
Theorem add_spawns_original_is_fixed_at_ten team i g n :
  spawns_of g team i = Some n → n + 10 ≤ u16_MAX →
  spawns_of (exec (add_spawns_original team i) g) team i = Some (n + 10) ∧
  outcome (add_spawns_original team i) g = Ok tt ∧
  (spawns_per_purchase g = 10 →
   add_spawns_original team i g = add_spawns team i g).
Proof.
  destruct team as [|[|?]]; unfold spawns_of; simpl; intros Hn Hle; [| |done].
  all: spawns_unfold; simpl; rewrite Hn; simpl.
  all: destruct (n + 10 <=? u16_MAX) eqn:E; [|apply Z.leb_gt in E; lia]; simpl.
  all: split; [apply list_lookup_insert_eq; by eapply lookup_lt_Some|].
  all: split; [done|]; intros ->; by rewrite E.
Qed.

Lemma add_spawns_original_is_fixed_at_ten_witness :
  add_spawns_original 0 0 (duel PayToSpawnOneVsOne 1000 InProgress)
    = add_spawns 0 0 (duel PayToSpawnOneVsOne 1000 InProgress).
Proof.
  refine (proj2 (proj2 (add_spawns_original_is_fixed_at_ten 0 0
            (duel PayToSpawnOneVsOne 1000 InProgress) 10 eq_refl _)) eq_refl).
  vm_compute. congruence.
Defined.

(** ** [join_user] over the state machine *)

Lemma players_per_team_positive m : (0 < players_per_team m)%nat.
Proof. destruct m; simpl; lia. Qed.

(** A team none of whose slots is taken has an empty slot. *)
Lemma get_empty_slot_empty_team t n :
  (0 < n)%nat → length (players t) = MAX_PLAYERS_PER_TEAM →
  (∀ p, p ∈ players t → p = Pubkey_default) →
  is_ok (get_empty_slot t n) = true.
Proof.
  intros Hn Hlen Hall. unfold get_empty_slot.
  destruct (players t) as [|x l] eqn:E; [done|].
  destruct n as [|n]; [lia|]. simpl.
  rewrite decide_True; [done|]. apply Hall. by left.
Qed.

Lemma waiting_unseated_same g g' :
  players (team_a g') = players (team_a g) →
  players (team_b g') = players (team_b g) →
  (status g' = WaitingForPlayers → status g = WaitingForPlayers) →
  waiting_unseated g → waiting_unseated g'.
Proof.
  intros Ha Hb Hst (Hla & Hlb & Hall). unfold waiting_unseated.
  rewrite Ha, Hb. split; [done|]. split; [done|]. intros H. by apply Hall, Hst.
Qed.

(** The first successful join leaves the session InProgress. *)
Lemma join_user_seats_in_progress user team w :
  waiting_unseated (session w) →
  run (join_user user team) w = Ok tt →
  status (session (after (join_user user team) w)) = InProgress.
Proof.
  intros (Hla & Hlb & Hall) Hok.
  assert (status (session w) = WaitingForPlayers) as Hst.
  { revert Hok. world_unfold. simpl.
    destruct (bool_decide _) eqn:Est; simpl; [|done].
    by apply bool_decide_eq_true in Est. }
  specialize (Hall Hst).
  destruct (join_user_status user team w Hok) as (filled & Hfilled & ->).
  destruct (join_user_players user team w Hok) as (_ & _ & i & Hi).
  assert (game_mode (session (after (join_user user team) w))
          = game_mode (session w)) as Hmode.
  { clear Hfilled Hi. revert Hok. world_unfold. simpl.
    repeat (case_match; simplify_eq/=); try done.
    all: by destruct team as [|[|?]]; simplify_eq/=. }
  unfold check_all_filled in Hfilled. rewrite Hmode in Hfilled.
  destruct Hi as [(-> & _ & _ & Hb) | (-> & _ & _ & Ha)].
  - rewrite (get_empty_slot_empty_team
               (team_b (session (after (join_user user 0) w)))) in Hfilled.
    + rewrite andb_false_r in Hfilled. by injection Hfilled as <-.
    + apply players_per_team_positive.
    + by rewrite Hb.
    + rewrite Hb. intros p Hp. apply Hall, elem_of_app. by right.
  - rewrite (get_empty_slot_empty_team
               (team_a (session (after (join_user user 1) w)))) in Hfilled.
    + by injection Hfilled as <-.
    + apply players_per_team_positive.
    + by rewrite Ha.
    + rewrite Ha. intros p Hp. apply Hall, elem_of_app. by left.
Qed.

Lemma add_kill_status kt ki vt vi g :
  status (exec (add_kill kt ki vt vi) g) = status g.
Proof.
  destruct (add_kill_exec kt ki vt vi g) as [-> | [-> | ->]]; [done| |].
  - apply record_kill_rest.
  - rewrite (proj1 (take_spawn_rest _ _ _)). apply record_kill_rest.
Qed.

Lemma add_spawns_status team i g :
  status (exec (add_spawns team i) g) = status g.
Proof.
  unfold add_spawns. destruct team as [|[|?]]; mut_unfold; simpl.
  all: repeat (case_match; mut_unfold; simplify_eq/=); done.
Qed.

Lemma step_waiting_unseated w w' :
  step w w' → waiting_unseated (session w) → waiting_unseated (session w').
Proof.
  destruct 1; intros Hinv.
  - destruct (run (join_user user team) w) as [[]|f] eqn:Hrun.
    + pose proof (join_user_seats_in_progress user team w Hinv Hrun) as Hst.
      destruct (join_user_players user team w Hrun) as (_ & _ & i & Hi).
      destruct Hinv as (Hla & Hlb & _). unfold waiting_unseated.
      rewrite Hst.
      destruct Hi as [(_ & _ & -> & ->) | (_ & _ & -> & ->)];
        rewrite length_insert; by repeat split.
    + rewrite join_user_failure_unchanged; [done|]. by rewrite Hrun.
  - destruct (add_kill_players kt ki vt vi (session w)).
    eapply waiting_unseated_same; [done|done| |done].
    simpl. by rewrite add_kill_status.
  - destruct (add_spawns_players team i (session w)).
    eapply waiting_unseated_same; [done|done| |done].
    simpl. by rewrite add_spawns_status.
  - by apply (waiting_unseated_same (session w)).
  - by rewrite distribute_pay_spawn_earnings_session.
  - by rewrite distribute_all_winnings_handler_session.
  - destruct (distribute_winnings_session calculate_distributions w)
      as [Hok Herr].
    destruct (run (distribute_winnings _) w) as [[]|f] eqn:Hr.
    + destruct (Hok eq_refl) as [_ ->].
      by apply (waiting_unseated_same (session w)).
    + by rewrite Herr.
Qed.

Lemma reachable_waiting_unseated w : reachable w → waiting_unseated (session w).
Proof.
  intros (id & auth & bet & m & l & Hrtc).
  remember (mkWorld (new_session id auth bet m) l) as w0 eqn:Hw0.
  assert (waiting_unseated (session w0)) as Hinv.
  { subst w0. split; [done|]. split; [done|]. intros _ p Hp. simpl in Hp.
    repeat (apply elem_of_cons in Hp as [->|Hp]; [done|]).
    by apply elem_of_nil in Hp. }
  clear Hw0. induction Hrtc as [|x y z Hstep _ IH]; [done|].
  apply IH. by eapply step_waiting_unseated.
Qed.

(** X8. [join_user] seats one player per session and no more. In every
    state reachable from a new session by any sequence of calls, a session
    in which some slot holds an identity is no longer WaitingForPlayers,
    the first successful join having set InProgress; so every later
    [join_user] call, by whatever identity and for whatever team, is
    answered InvalidGameState and changes nothing. *)
Theorem join_user_refused_once_seated w t tm j p :
  reachable w →
  team_of (session w) t = Some tm → players tm !! j = Some p →
  p ≠ Pubkey_default →
  status (session w) ≠ WaitingForPlayers ∧
  ∀ user team, join_user user team w = (Err (Wager InvalidGameState), w).
Proof.
  intros Hreach Ht Hj Hp.
  destruct (reachable_waiting_unseated w Hreach) as (_ & _ & Hall).
  assert (status (session w) ≠ WaitingForPlayers) as Hst.
  { intros Hst. apply Hp, (Hall Hst), elem_of_app.
    destruct t as [|[|?]]; simplify_eq/=; [left|right];
      by eapply list_elem_of_lookup_2. }
  split; [done|]. intros user team. world_unfold. simpl.
  by rewrite bool_decide_eq_false_2.
Qed.

Lemma join_user_refused_once_seated_witness :
  join_user 2 1 scenario_a_joined = (Err (Wager InvalidGameState), scenario_a_joined).
Proof.
  refine (proj2 (join_user_refused_once_seated scenario_a_joined 0%nat
                   (team_a (session scenario_a_joined)) 0%nat 1 _ eq_refl eq_refl _)
            2 1%nat).
  - exists "atomic_test"%string, 7, 1000, WinnerTakesAllOneVsOne, (funded 0).
    eapply rtc_l; [apply (step_join_user 1 0)|].
    apply rtc_once. apply (step_join_user 2 1).
  - discriminate.
Defined.

(** ** Session creation and expiry *)

(** X9. The bet validation of `create_game_session` accepts exactly the
    amounts from MIN_BET_AMOUNT to MAX_BET_AMOUNT, and sorts every other
    amount of an unsigned integer into one error: 0 is InvalidBetAmount,
    anything above the maximum BetAmountTooHigh, anything positive below
    the minimum BetAmountTooLow; so one below the minimum and one above
    the maximum are refused and the two bounds themselves accepted. *)
Theorem validate_bet_amount_sorts bet_amount :
  0 ≤ bet_amount →
  (validate_bet_amount bet_amount = Accepted ↔
     MIN_BET_AMOUNT ≤ bet_amount ≤ MAX_BET_AMOUNT) ∧
  (validate_bet_amount bet_amount = Rejected InvalidBetAmount ↔ bet_amount = 0) ∧
  (validate_bet_amount bet_amount = Rejected BetAmountTooHigh ↔
     MAX_BET_AMOUNT < bet_amount) ∧
  (validate_bet_amount bet_amount = Rejected BetAmountTooLow ↔
     0 < bet_amount < MIN_BET_AMOUNT) ∧
  validate_bet_amount (MIN_BET_AMOUNT - 1) = Rejected BetAmountTooLow ∧
  validate_bet_amount (MAX_BET_AMOUNT + 1) = Rejected BetAmountTooHigh ∧
  validate_bet_amount MIN_BET_AMOUNT = Accepted ∧
  validate_bet_amount MAX_BET_AMOUNT = Accepted.
Proof.
  intros Hpos. unfold validate_bet_amount, MIN_BET_AMOUNT, MAX_BET_AMOUNT.
  destruct (0 <? bet_amount) eqn:E0;
    [apply Z.ltb_lt in E0 | apply Z.ltb_ge in E0]; simpl.
  2: { repeat split; try done; try lia. all: intros [= ]. }
  destruct (bet_amount <=? 1000000000000) eqn:E1;
    [apply Z.leb_le in E1 | apply Z.leb_gt in E1]; simpl.
  2: { repeat split; try done; try lia. all: try (intros [= ]). }
  destruct (1000 <=? bet_amount) eqn:E2;
    [apply Z.leb_le in E2 | apply Z.leb_gt in E2]; simpl.
  all: repeat split; try done; try lia.
  all: try (intros [= ]).
Qed.

Lemma validate_bet_amount_sorts_witness :
  validate_bet_amount 5000 = Accepted.
Proof.
  apply (proj1 (validate_bet_amount_sorts 5000 ltac:(lia))).
  unfold MIN_BET_AMOUNT, MAX_BET_AMOUNT. lia.
Defined.

(** X10. The expiry check passes exactly for timestamps strictly below
    `expires_at`: the session is already expired at `expires_at` itself,
    and once the check has refused a timestamp it refuses every later
    one. *)
Theorem require_not_expired_monotone g t :
  (require_not_expired g t = Accepted ↔ t < expires_at g) ∧
  require_not_expired g (expires_at g) = Rejected GameSessionExpired ∧
  (∀ t', require_not_expired g t = Rejected GameSessionExpired → t ≤ t' →
         require_not_expired g t' = Rejected GameSessionExpired).
Proof.
  unfold require_not_expired, is_expired. split; [|split].
  - destruct (expires_at g <=? t) eqn:E;
      [apply Z.leb_le in E | apply Z.leb_gt in E]; simpl; split; try done; lia.
  - by rewrite Z.leb_refl.
  - intros t' H Hle.
    destruct (expires_at g <=? t) eqn:E; [apply Z.leb_le in E|done].
    destruct (expires_at g <=? t') eqn:E'; [done|apply Z.leb_gt in E'; lia].
Qed.

Lemma require_not_expired_monotone_witness :
  require_not_expired (new_session "s" 7 1000 PayToSpawnOneVsOne) 5
    = Rejected GameSessionExpired.
Proof.
  apply (proj2 (proj2 (require_not_expired_monotone
                 (new_session "s" 7 1000 PayToSpawnOneVsOne) 1)) 5);
    [reflexivity | lia].
Defined.

(** ** The remaining accounts (section 3.3) *)

Lemma list_pair_ind {A} (P : list A → Prop) :
  P [] → (∀ x, P [x]) → (∀ x y l, P l → P (x :: y :: l)) → ∀ l, P l.
Proof.
  intros Hnil Hone Hstep l.
  assert (P l ∧ ∀ x, P (x :: l)) as [? _]; [|done].
  induction l as [|y l [IH1 IH2]]; [by split|].
  split; [apply IH2|]. intros x. by apply Hstep.
Qed.

Lemma step_by_2_lookup {A} (l : list A) (i : nat) :
  step_by_2 l !! i = l !! (2 * i)%nat.
Proof.
  revert i. induction l as [|x|x y l IH] using list_pair_ind; intros [|i]; try done.
  simpl. rewrite IH. by replace (i + S (i + 0))%nat with (S (2 * i)) by lia.
Qed.

(** X11. The search over `step_by(2)` answers the index [i] exactly when
    the player's key stands at position 2·i of the remaining accounts and
    at no earlier even position, and InvalidPlayer exactly when it stands
    at no even position at all: a key that only occurs at odd positions,
    where the token accounts are, is not found. *)
Theorem find_player_index_spec remaining_accounts player :
  (∀ i, find_player_index remaining_accounts player = Ok i ↔
        remaining_accounts !! (2 * i)%nat = Some player ∧
        ∀ j, (j < i)%nat → remaining_accounts !! (2 * j)%nat ≠ Some player) ∧
  (find_player_index remaining_accounts player = Err (Wager InvalidPlayer) ↔
   ∀ j, remaining_accounts !! (2 * j)%nat ≠ Some player).
Proof.
  unfold find_player_index. split.
  - intros i.
    destruct (list_find _ _) as [[i' x]|] eqn:E.
    + apply list_find_Some in E as (Hl & -> & Hmin).
      rewrite step_by_2_lookup in Hl. split.
      * intros [= ->]. split; [done|]. intros j Hj Hp.
        apply (Hmin j player); [by rewrite step_by_2_lookup|done|done].
      * intros [Hi Hfirst]. f_equal.
        destruct (lt_eq_lt_dec i i') as [[Hlt| ->]|Hgt]; [|done|].
        -- destruct (Hmin i player); [by rewrite step_by_2_lookup|done|done].
        -- by destruct (Hfirst i' Hgt).
    + split; [done|]. intros [Hi _].
      apply list_find_None in E. rewrite Forall_forall in E.
      destruct (E player); [|done].
      apply list_elem_of_lookup. exists i. by rewrite step_by_2_lookup.
  - destruct (list_find _ _) as [[i x]|] eqn:E.
    + apply list_find_Some in E as (Hl & -> & _).
      rewrite step_by_2_lookup in Hl. split; [done|]. intros H. by destruct (H i).
    + split; [|done]. intros _ j Hj.
      apply list_find_None in E. rewrite Forall_forall in E.
      destruct (E player); [|done].
      apply list_elem_of_lookup. exists j. by rewrite step_by_2_lookup.
Qed.

(** A plan exists only for a whole number of chunks. *)
Lemma plan_transfers_even g ra ts :
  plan_transfers g ra = Ok ts → Nat.Even (length ra).
Proof.
  revert ts. induction ra as [|x|x y ra IH] using list_pair_ind; intros ts H.
  - by exists 0%nat.
  - done.
  - simpl in H.
    assert (∃ ts', plan_transfers g ra = Ok ts') as [ts' H'].
    { destruct (get_kills_and_spawns g x) as [ks|]; [|done].
      destruct (ks =? 0); [by eauto|].
      destruct (calculate_earnings _ _); [|done].
      destruct (plan_transfers g ra); [by eauto|done]. }
    destruct (IH _ H') as [k Hk]. exists (S k). simpl. lia.
Qed.

Lemma plan_transfers_app g ra1 ra2 t1 :
  plan_transfers g ra1 = Ok t1 →
  plan_transfers g (ra1 ++ ra2) =
    match plan_transfers g ra2 with
    | Ok t2 => Ok (t1 ++ t2)
    | Err f => Err f
    end.
Proof.
  revert t1. induction ra1 as [|x|x y ra1 IH] using list_pair_ind; intros t1 H.
  - injection H as <-. simpl. by destruct (plan_transfers g ra2).
  - done.
  - change ((x :: y :: ra1) ++ ra2) with (x :: y :: (ra1 ++ ra2)).
    simpl in H |- *.
    destruct (get_kills_and_spawns g x) as [ks|]; [|done].
    destruct (ks =? 0); [by apply IH|].
    destruct (calculate_earnings _ _) as [e|]; [|done].
    destruct (plan_transfers g ra1) as [t|] eqn:Ht; [|done].
    injection H as <-. rewrite (IH t eq_refl).
    by destruct (plan_transfers g ra2).
Qed.

(** X12. The plan of the two-phase fix follows the remaining accounts,
    not the session's slots: when the caller lists the same accounts a
    second time, every transfer is planned a second time and each token
    account is due twice its amount. *)
Theorem plan_transfers_doubles g remaining_accounts transfers :
  plan_transfers g remaining_accounts = Ok transfers →
  plan_transfers g (remaining_accounts ++ remaining_accounts)
    = Ok (transfers ++ transfers) ∧
  ∀ token_account,
    received (transfers ++ transfers) token_account
      = 2 * received transfers token_account.
Proof.
  intros H. split.
  - by rewrite (plan_transfers_app _ _ _ _ H), H.
  - intros tok. rewrite received_app. lia.
Qed.

Lemma plan_transfers_doubles_witness :
  plan_transfers (duel PayToSpawnOneVsOne 1000 Completed) [1; 101; 1; 101]
    = Ok ([(101, 1000)] ++ [(101, 1000)]).
Proof.
  apply (plan_transfers_doubles (duel PayToSpawnOneVsOne 1000 Completed)
           [1; 101] [(101, 1000)] eq_refl).
Defined.

(** X13. A plan is returned only for an even number of remaining accounts
    (a last chunk of one account aborts), and every transfer in it comes
    from a chunk (player, token account) whose player has a nonzero
    `kills + spawns`: its amount is floor(kills_and_spawns × bet / 10), a
    product that fits `u64`, and its recipient is the token account the
    caller put next to the player. *)
Theorem plan_transfers_sound g remaining_accounts transfers :
  plan_transfers g remaining_accounts = Ok transfers →
  Nat.Even (length remaining_accounts) ∧
  Forall (λ t, ∃ j player ks,
            remaining_accounts !! (2 * j)%nat = Some player ∧
            remaining_accounts !! (2 * j + 1)%nat = Some t.1 ∧
            get_kills_and_spawns g player = Ok ks ∧ ks ≠ 0 ∧
            ks * session_bet g ≤ u64_MAX ∧
            t.2 = (ks * session_bet g) `div` 10) transfers.
Proof.
  intros H. split; [by eapply plan_transfers_even|].
  revert transfers H.
  induction remaining_accounts as [|x|x y ra IH] using list_pair_ind;
    intros ts H.
  - by injection H as <-.
  - done.
  - assert (∀ ts', Forall (λ t, ∃ j player ks,
              ra !! (2 * j)%nat = Some player ∧
              ra !! (2 * j + 1)%nat = Some t.1 ∧
              get_kills_and_spawns g player = Ok ks ∧ ks ≠ 0 ∧
              ks * session_bet g ≤ u64_MAX ∧
              t.2 = (ks * session_bet g) `div` 10) ts' →
            Forall (λ t, ∃ j player ks,
              (x :: y :: ra) !! (2 * j)%nat = Some player ∧
              (x :: y :: ra) !! (2 * j + 1)%nat = Some t.1 ∧
              get_kills_and_spawns g player = Ok ks ∧ ks ≠ 0 ∧
              ks * session_bet g ≤ u64_MAX ∧
              t.2 = (ks * session_bet g) `div` 10) ts') as Hshift.
    { intros ts' HF. eapply Forall_impl; [exact HF|].
      intros t (j & p & ks & H1 & H2 & Hrest).
      exists (S j), p, ks.
      replace (2 * S j)%nat with (S (S (2 * j))) by lia.
      replace (S (S (2 * j)) + 1)%nat with (S (S (2 * j + 1))) by lia.
      done. }
    simpl in H.
    destruct (get_kills_and_spawns g x) as [ks|] eqn:Eks; [|done].
    destruct (ks =? 0) eqn:Ez; [by apply Hshift, IH|].
    apply Z.eqb_neq in Ez.
    rewrite calculate_earnings_spec in H.
    destruct (ks * session_bet g <=? u64_MAX) eqn:Eo; [|done].
    apply Z.leb_le in Eo.
    destruct (plan_transfers g ra) as [t|]; [|done].
    injection H as <-. apply Forall_cons. split; [|by apply Hshift, IH].
    by exists 0%nat, x, ks.
Qed.

Lemma plan_transfers_sound_witness :
  Nat.Even (length [1; 101; 2; 102]).
Proof.
  apply (plan_transfers_sound (duel PayToSpawnOneVsOne 1000 Completed)
           [1; 101; 2; 102] [(101, 1000); (102, 1000)] eq_refl).
Defined.

(** ** The audited loops and their fixes (section 1.2) *)

Ltac loop_unfold :=
  unfold mbind, Mut_bind, bind, lift, get, require, token_transfer,
    transfer_from_vault, mul_checked, ret, fail, panic in *.

Lemma pay_spawn_loop_original_cons g ra p ps l :
  pay_spawn_loop_original g ra (p :: ps) l =
    match get_kills_and_spawns g p with
    | Err f => (Err f, l)
    | Ok s =>
        if s =? 0 then pay_spawn_loop_original g ra ps l
        else if s * session_bet g <=? u64_MAX then
          match player_token_account ra p with
          | Err f => (Err f, l)
          | Ok token_account =>
              let e := (s * session_bet g) `div` 10 in
              if 0 <? e then
                if vault_balance l <? e then (Err InsufficientFunds, l)
                else pay_spawn_loop_original g ra ps
                       (mkLedger (vault_balance l - e)
                                 (credit (balance_of l) token_account e))
              else pay_spawn_loop_original g ra ps l
          end
        else (Err Panic, l)
    end.
Proof.
  simpl. loop_unfold.
  destruct (get_kills_and_spawns g p) as [s|f]; [|done].
  destruct (s =? 0); [done|].
  destruct (s * session_bet g <=? u64_MAX); [|done].
  destruct (player_token_account ra p) as [tok|f]; [|done]. simpl.
  destruct (0 <? _); [|done].
  by destruct (vault_balance l <? _).
Qed.

Lemma pay_spawn_loop_fix_relabels_from g ra amount players l :
  vault_balance l ≤ amount →
  pay_spawn_loop_original g ra players l =
    (as_audited (pay_spawn_loop g ra amount players l).1,
     (pay_spawn_loop g ra amount players l).2).
Proof.
  revert l. induction players as [|p ps IH]; intros l Hv; [done|].
  rewrite pay_spawn_loop_cons, pay_spawn_loop_original_cons.
  destruct (get_kills_and_spawns g p) as [ks|f] eqn:Eks.
  2: { simpl. unfold get_kills_and_spawns in Eks.
       by repeat case_match; simplify_eq. }
  destruct (ks =? 0); [by apply IH|].
  destruct (ks * session_bet g <=? u64_MAX); [|done].
  destruct (player_token_account ra p) as [tok|f] eqn:Et.
  2: { simpl. unfold player_token_account, find_player_index in Et.
       by repeat case_match; simplify_eq. }
  simpl.
  destruct (Z.ltb_spec 0 ((ks * session_bet g) `div` 10)) as [He|He];
    [|by apply IH].
  destruct (Z.leb_spec ((ks * session_bet g) `div` 10) amount).
  - destruct (Z.ltb_spec (vault_balance l) ((ks * session_bet g) `div` 10));
      [done|]. apply IH. simpl. lia.
  - by destruct (Z.ltb_spec (vault_balance l) ((ks * session_bet g) `div` 10));
      [|lia].
Qed.

(** X14. The balance check and the checked arithmetic added to the
    pay-to-spawn loop change no ledger: on every input the audited loop
    and the fixed loop make the same transfers, succeed together, and
    fail together; only the error differs, InsufficientFunds of the ledger
    becoming InsufficientVaultBalance where the fix sees the shortage
    first, and the abort of the product ArithmeticError. The amount the
    check of the fix reads is the vault's balance as the instruction found
    it; the same holds from every later point of the loop, where that
    amount is not below the balance the loop finds. *)
Theorem pay_spawn_loop_fix_relabels g remaining_accounts players l :
  pay_spawn_loop_original g remaining_accounts players l =
    (as_audited (pay_spawn_loop g remaining_accounts (vault_balance l)
                   players l).1,
     (pay_spawn_loop g remaining_accounts (vault_balance l) players l).2) ∧
  ∀ vault_token_account_amount,
    vault_balance l ≤ vault_token_account_amount →
    pay_spawn_loop_original g remaining_accounts players l =
      (as_audited (pay_spawn_loop g remaining_accounts
                     vault_token_account_amount players l).1,
       (pay_spawn_loop g remaining_accounts vault_token_account_amount
          players l).2).
Proof.
  split.
  - by apply pay_spawn_loop_fix_relabels_from.
  - intros amount. apply pay_spawn_loop_fix_relabels_from.
Qed.

(** The audited winner-takes-all loop knows two errors only. *)
Lemma winnings_loop_original_as_audited g winners l :
  as_audited (winnings_loop_original g winners l).1
    = (winnings_loop_original g winners l).1.
Proof.
  revert l. induction winners as [|p ps IH]; intros l; [done|].
  simpl. loop_unfold.
  destruct (session_bet g * 2 <=? u64_MAX); [|done].
  destruct (vault_balance l <? session_bet g * 2); [done|]. apply IH.
Qed.

(** When the amount is within the balance read at entry, the check of the
    fix passes in every round. *)
Lemma winnings_loop_check_passes g amount winners l :
  session_bet g * 2 ≤ amount →
  winnings_loop g amount winners l = winnings_loop_original g winners l.
Proof.
  intros Ha. revert l. induction winners as [|p ps IH]; intros l; [done|].
  simpl. loop_unfold.
  destruct (session_bet g * 2 <=? u64_MAX); [|done].
  destruct (Z.leb_spec (session_bet g * 2) amount); [|lia].
  destruct (vault_balance l <? session_bet g * 2); [done|]. apply IH.
Qed.

Lemma winnings_loop_fix_relabels_from g amount winners l :
  vault_balance l ≤ amount →
  winnings_loop_original g winners l =
    (as_audited (winnings_loop g amount winners l).1,
     (winnings_loop g amount winners l).2).
Proof.
  intros Hv.
  destruct (Z.le_gt_cases (session_bet g * 2) amount) as [Ha|Ha].
  - rewrite winnings_loop_check_passes by done.
    rewrite winnings_loop_original_as_audited.
    by destruct (winnings_loop_original g winners l).
  - destruct winners as [|p ps]; [done|].
    simpl. loop_unfold.
    destruct (session_bet g * 2 <=? u64_MAX); [|done].
    destruct (Z.leb_spec (session_bet g * 2) amount); [lia|].
    by destruct (Z.ltb_spec (vault_balance l) (session_bet g * 2)); [|lia].
Qed.

(** X15. The same for the winner-takes-all loop: the audited loop and the
    one with the balance check leave the same ledger on every input and
    differ only in naming the refusal of a transfer the vault cannot
    cover; the amount the check reads is the vault's balance as the
    instruction found it, or any amount not below the balance the loop
    finds. *)
Theorem winnings_loop_fix_relabels g winners l :
  winnings_loop_original g winners l =
    (as_audited (winnings_loop g (vault_balance l) winners l).1,
     (winnings_loop g (vault_balance l) winners l).2) ∧
  ∀ vault_token_account_amount,
    vault_balance l ≤ vault_token_account_amount →
    winnings_loop_original g winners l =
      (as_audited (winnings_loop g vault_token_account_amount winners l).1,
       (winnings_loop g vault_token_account_amount winners l).2).
Proof.
  split.
  - by apply winnings_loop_fix_relabels_from.
  - intros amount. apply winnings_loop_fix_relabels_from.
Qed.

(** X16. The winner-takes-all loop with its check pays the winners in slot
    order for as long as the ledger affords another `session_bet * 2`: it
    pays the first floor(vault / amount) of them and returns Ok when those
    are all the winners. When they are not, the error depends on the
    balance read at entry, which every round's check compares with: an
    amount above it is refused by the first check, InsufficientVaultBalance
    with nothing paid; an amount within it passes every check, and the
    call ends with the token program's InsufficientFunds, the earlier
    payments made. *)
Theorem winnings_loop_pays_prefix g vault_token_account_amount winners l :
  0 < session_bet g * 2 ≤ u64_MAX → 0 ≤ vault_balance l →
  vault_balance l ≤ vault_token_account_amount →
  winnings_loop g vault_token_account_amount winners l =
    (if (length winners <=? Z.to_nat (vault_balance l `div` (session_bet g * 2)))%nat
     then Ok tt
     else if session_bet g * 2 <=? vault_token_account_amount
          then Err InsufficientFunds
          else Err (Wager InsufficientVaultBalance),
     pay_all l ((λ p, (p, session_bet g * 2)) <$>
                  take (Z.to_nat (vault_balance l `div` (session_bet g * 2)))
                       winners)).
Proof.
  intros [Hpos Hmax]. set (a := session_bet g * 2) in *.
  revert l. induction winners as [|p ps IH]; intros l Hv Ham.
  { by rewrite take_nil. }
  simpl winnings_loop. loop_unfold. fold a.
  destruct (a <=? u64_MAX) eqn:Ea; [|apply Z.leb_gt in Ea; lia].
  destruct (Z.leb_spec a vault_token_account_amount) as [E|E].
  - destruct (Z.ltb_spec (vault_balance l) a) as [E'|E'].
    + rewrite Z.div_small by lia. simpl. done.
    + assert (vault_balance l `div` a = (vault_balance l - a) `div` a + 1) as Hdiv.
      { replace (vault_balance l) with ((vault_balance l - a) + 1 * a) at 1 by lia.
        rewrite Z.div_add by lia. lia. }
      assert (0 ≤ (vault_balance l - a) `div` a) as Hq by (apply Z.div_pos; lia).
      rewrite IH by (simpl; lia). simpl vault_balance.
      rewrite Hdiv.
      replace (Z.to_nat ((vault_balance l - a) `div` a + 1))
        with (S (Z.to_nat ((vault_balance l - a) `div` a))) by lia.
      simpl length. rewrite firstn_cons, fmap_cons, pay_all_cons. simpl.
      destruct (Z.leb_spec a vault_token_account_amount); [|lia].
      f_equal.
  - rewrite Z.div_small by lia. simpl. done.
Qed.

Lemma winnings_loop_pays_prefix_witness :
  winnings_loop (duel WinnerTakesAllOneVsOne 1000 Completed) 3000 [1; 2]
    (funded 3000)
    = (Err InsufficientFunds,
       pay_all (funded 3000) ((λ p, (p, 1000 * 2)) <$> take 1 [1; 2])).
Proof.
  apply (winnings_loop_pays_prefix (duel WinnerTakesAllOneVsOne 1000 Completed)
           3000 [1; 2] (funded 3000));
    [split; vm_compute; congruence | vm_compute; congruence | simpl; lia].
Defined.

(** ** [distribute_winnings] (Appendix A.2) *)

Lemma distribute_winnings_succeeds_iff_aux calc w ds :
  calc (session w) = Ok ds → Forall (λ d, 0 ≤ d.2) ds →
  (run (distribute_winnings calc) w = Ok tt ↔
   status (session w) = Completed ∧ total_of ds ≤ u64_MAX ∧
   total_of ds ≤ vault_balance (bank w)).
Proof.
  intros Hds Hpos. settle_unfold. unfold calculate_total_distribution.
  simpl. rewrite Hds.
  destruct (bool_decide (status (session w) = Completed)) eqn:Est;
    [apply bool_decide_eq_true in Est
    |apply bool_decide_eq_false in Est; simpl; split; [done|by intros [? _]]].
  simpl.
  destruct (total_of ds <=? u64_MAX) eqn:E1;
    [apply Z.leb_le in E1
    |apply Z.leb_gt in E1; simpl; split; [done|intros (_ & ? & _); lia]].
  simpl.
  destruct (total_of ds <=? vault_balance (bank w)) eqn:E2;
    [apply Z.leb_le in E2
    |apply Z.leb_gt in E2; simpl; split; [done|intros (_ & _ & ?); lia]].
  simpl. by rewrite transfer_all_covered.
Qed.

(** X17. For a list of non-negative payouts, [distribute_winnings]
    returns Ok exactly when the session is Completed, the sum of the
    payouts fits `u64` and the vault holds at least that sum: once the
    total has been checked no transfer of the batch can fail. *)
Theorem distribute_winnings_succeeds_iff calc w ds :
  calc (session w) = Ok ds → Forall (λ d, 0 ≤ d.2) ds →
  (run (distribute_winnings calc) w = Ok tt ↔
   status (session w) = Completed ∧ total_of ds ≤ u64_MAX ∧
   total_of ds ≤ vault_balance (bank w)).
Proof. apply distribute_winnings_succeeds_iff_aux. Qed.

Lemma distribute_winnings_succeeds_iff_witness :
  run (distribute_winnings (λ _, Ok [(1, 2000)])) scenario_a_completed
    = Ok tt.
Proof.
  apply (proj2 (distribute_winnings_succeeds_iff (λ _, Ok [(1, 2000)])
                  scenario_a_completed [(1, 2000)] eq_refl
                  ltac:(repeat constructor; simpl; lia))).
  repeat split; vm_compute; congruence.
Defined.

(** X18. [distribute_winnings] is all-or-nothing: after a success every
    recipient's balance has grown by what the batch sends to it and the
    vault has shrunk by the total; after any failure the vault and every
    balance are what they were and the session is untouched. *)
Theorem distribute_winnings_atomic calc w ds :
  ledger_valid (bank w) →
  calc (session w) = Ok ds → Forall (λ d, 0 ≤ d.2) ds →
  (run (distribute_winnings calc) w = Ok tt →
   vault_balance (bank (after (distribute_winnings calc) w))
     = vault_balance (bank w) - total_of ds ∧
   ∀ p, balance_of (bank (after (distribute_winnings calc) w)) p
        = balance_of (bank w) p + received ds p) ∧
  (run (distribute_winnings calc) w ≠ Ok tt →
   vault_balance (bank (after (distribute_winnings calc) w)) = vault_balance (bank w) ∧
   (∀ p, balance_of (bank (after (distribute_winnings calc) w)) p
         = balance_of (bank w) p) ∧
   session (after (distribute_winnings calc) w) = session w).
Proof.
  intros Hval Hds Hpos.
  destruct (distribute_winnings_all_or_nothing calc w ds Hval Hds Hpos)
    as [(Hok & Hbank & _) | (Herr & [Hv Hb] & Hs)].
  - split; [|done]. intros _. rewrite Hbank. split.
    + apply pay_all_vault.
    + intros p. apply pay_all_balance.
  - split; [done|]. by intros _.
Qed.

Lemma distribute_winnings_atomic_witness :
  balance_of (bank (after (distribute_winnings (λ _, Ok [(1, 2000)]))
                      scenario_a_completed)) 1
    = 4000 + received [(1, 2000)] 1.
Proof.
  assert (ledger_valid (bank scenario_a_completed)) as Hval.
  { split; [vm_compute; congruence|]. intros p. simpl. case_decide; lia. }
  destruct (distribute_winnings_atomic (λ _, Ok [(1, 2000)])
              scenario_a_completed [(1, 2000)] Hval eq_refl
              ltac:(repeat constructor; simpl; lia)) as [Hok _].
  destruct (Hok eq_refl) as [_ Hb]. exact (Hb 1).
Defined.

(** X19. A session is settled once: after a successful
    [distribute_winnings] every further call, over whatever recipients,
    returns GameNotComplete and changes neither the session nor the
    ledger. *)
Theorem distribute_winnings_once calc calc' w :
  run (distribute_winnings calc) w = Ok tt →
  distribute_winnings calc' (after (distribute_winnings calc) w)
    = (Err (Wager GameNotComplete), after (distribute_winnings calc) w).
Proof.
  intros Hok.
  destruct (distribute_winnings_session calc w) as [Hs _].
  destruct (Hs Hok) as [_ Hsess].
  unfold distribute_winnings at 1.
  unfold mbind, Mut_bind, bind, get, require, ret, fail. simpl.
  rewrite Hsess. simpl. done.
Qed.

Lemma distribute_winnings_once_witness :
  run (distribute_winnings (λ _, Ok [(1, 2000)]))
      (after (distribute_winnings (λ _, Ok [(1, 2000)]))
             scenario_a_completed)
    = Err (Wager GameNotComplete).
Proof.
  unfold run at 1.
  by rewrite (distribute_winnings_once (λ _, Ok [(1, 2000)])
                (λ _, Ok [(1, 2000)]) scenario_a_completed eq_refl).
Defined.

(** X20. [distribute_winnings] never overdraws: from a ledger whose vault
    and balances are non-negative, and for non-negative payouts, the
    ledger it leaves behind has a non-negative vault and non-negative
    balances, whether the call succeeds or fails. *)
Theorem distribute_winnings_keeps_ledger_valid calc w ds :
  ledger_valid (bank w) →
  calc (session w) = Ok ds → Forall (λ d, 0 ≤ d.2) ds →
  ledger_valid (bank (after (distribute_winnings calc) w)).
Proof.
  intros Hval Hds Hpos.
  destruct (distribute_winnings_all_or_nothing calc w ds Hval Hds Hpos)
    as [(Hok & Hbank & _) | (Herr & [Hv Hb] & Hs)].
  - pose proof (proj1 (distribute_winnings_succeeds_iff_aux calc w ds Hds Hpos) Hok)
      as (_ & _ & Hle).
    destruct Hval as [Hv0 Hb0]. rewrite Hbank. split.
    + rewrite pay_all_vault. lia.
    + intros p. rewrite pay_all_balance.
      pose proof (received_nonneg ds p Hpos). specialize (Hb0 p). lia.
  - destruct Hval as [Hv0 Hb0]. split; [lia|]. intros p. rewrite Hb. apply Hb0.
Qed.

Lemma distribute_winnings_keeps_ledger_valid_witness :
  ledger_valid (bank (after (distribute_winnings (λ _, Ok [(1, 2000)]))
                        scenario_a_completed)).
Proof.
  apply (distribute_winnings_keeps_ledger_valid (λ _, Ok [(1, 2000)])
           scenario_a_completed [(1, 2000)]); [|reflexivity|].
  - split; [vm_compute; congruence|]. intros p. simpl. case_decide; lia.
  - repeat constructor; simpl; lia.
Defined.

(** ** The earnings formula *)

(** X21. What [calculate_earnings] returns is the floor of
    kills_and_spawns × bet / 10: ten times the amount never exceeds the
    product and misses it by less than ten; a larger score never earns
    less; and two scores paid separately never earn more than their sum
    paid at once, so rounding only ever leaves tokens in the vault. *)
Theorem calculate_earnings_floor ks bet e :
  0 ≤ ks → 0 ≤ bet → calculate_earnings ks bet = Ok e →
  (0 ≤ e ∧ 10 * e ≤ ks * bet < 10 * e + 10) ∧
  (∀ ks' e', ks ≤ ks' → calculate_earnings ks' bet = Ok e' → e ≤ e') ∧
  (∀ ks2 e2 e12, 0 ≤ ks2 → calculate_earnings ks2 bet = Ok e2 →
                 calculate_earnings (ks + ks2) bet = Ok e12 → e + e2 ≤ e12).
Proof.
  intros Hks Hbet. rewrite calculate_earnings_spec.
  destruct (ks * bet <=? u64_MAX); [|done]. intros [= <-].
  assert (0 ≤ ks * bet) as Hp by nia.
  split; [|split].
  - pose proof (Z.div_mod (ks * bet) 10 ltac:(lia)).
    pose proof (Z.mod_pos_bound (ks * bet) 10 ltac:(lia)).
    split; [apply Z.div_pos; lia|lia].
  - intros ks' e' Hle. rewrite calculate_earnings_spec.
    destruct (ks' * bet <=? u64_MAX); [|done]. intros [= <-].
    apply Z.div_le_mono; [lia|nia].
  - intros ks2 e2 e12 Hks2. rewrite !calculate_earnings_spec.
    destruct (ks2 * bet <=? u64_MAX); [|done]. intros [= <-].
    destruct ((ks + ks2) * bet <=? u64_MAX); [|done]. intros [= <-].
    apply Z.div_le_lower_bound; [lia|].
    pose proof (Z.mul_div_le (ks * bet) 10 ltac:(lia)).
    pose proof (Z.mul_div_le (ks2 * bet) 10 ltac:(lia)).
    nia.
Qed.

Lemma calculate_earnings_floor_witness :
  0 ≤ 1253 ∧ 10 * 1253 ≤ 7 * 1791 < 10 * 1253 + 10.
Proof.
  apply (calculate_earnings_floor 7 1791 1253); [lia | lia | reflexivity].
Defined.

(** ** [check_all_filled] and the slots of [join_user] *)

Lemma get_empty_slot_err t n :
  (∃ f, get_empty_slot t n = Err f) ↔
  ∀ i, (i < n)%nat → players t !! i ≠ Some Pubkey_default.
Proof.
  unfold get_empty_slot.
  destruct (list_find _ _) as [[j x]|] eqn:E.
  - apply list_find_Some in E as (Hl & -> & _).
    apply lookup_take_Some in Hl as [Hl Hj]. split; [by intros [? ?]|].
    intros H. by destruct (H j Hj).
  - split; [|by eauto]. intros _ i Hi Hl.
    apply list_find_None in E. rewrite Forall_forall in E.
    apply (E Pubkey_default); [|done].
    apply list_elem_of_lookup. exists i. by apply lookup_take_Some.
Qed.

Lemma get_empty_slot_err_kind t n f :
  get_empty_slot t n = Err f → f = Wager TeamIsFull.
Proof.
  unfold get_empty_slot. destruct (list_find _ _) as [[j x]|]; [done|].
  by intros [= <-].
Qed.

(** X22. The fixed [check_all_filled] answers true exactly when none of
    the first `players_per_team` slots of either team holds
    `Pubkey::default()`; slots beyond `players_per_team` do not count. *)
Theorem check_all_filled_true_iff g :
  check_all_filled g = Ok true ↔
  ∀ i, (i < players_per_team (game_mode g))%nat →
       players (team_a g) !! i ≠ Some Pubkey_default ∧
       players (team_b g) !! i ≠ Some Pubkey_default.
Proof.
  unfold check_all_filled.
  pose proof (get_empty_slot_err (team_a g) (players_per_team (game_mode g))) as Ha.
  pose proof (get_empty_slot_err (team_b g) (players_per_team (game_mode g))) as Hb.
  destruct (get_empty_slot (team_a g) _) as [ia|fa];
    destruct (get_empty_slot (team_b g) _) as [ib|fb]; simpl.
  - split; [done|]. intros H. destruct (proj2 Ha) as [? ?]; [|done].
    intros i Hi. by apply H.
  - split; [done|]. intros H. destruct (proj2 Ha) as [? ?]; [|done].
    intros i Hi. by apply H.
  - split; [done|]. intros H. destruct (proj2 Hb) as [? ?]; [|done].
    intros i Hi. by apply H.
  - split; [|done]. intros _ i Hi. split.
    + apply Ha; by eauto.
    + apply Hb; by eauto.
Qed.

(** X23. The audited [check_all_filled], which recognises a full team by
    the text of the error, and the fixed one, which only asks whether the
    search failed, agree on every session provided the text of the
    TeamIsFull error contains "TeamIsFull"; if it does not, the audited
    one never reports a session as filled. *)
Theorem check_all_filled_original_agrees to_string g :
  (is_team_full_error to_string (Wager TeamIsFull) = true →
   check_all_filled_original to_string g = check_all_filled g) ∧
  (is_team_full_error to_string (Wager TeamIsFull) = false →
   check_all_filled_original to_string g = Ok false).
Proof.
  unfold check_all_filled_original, check_all_filled.
  destruct (get_empty_slot (team_a g) _) as [ia|fa] eqn:Ea;
    destruct (get_empty_slot (team_b g) _) as [ib|fb] eqn:Eb; simpl; try done.
  apply get_empty_slot_err_kind in Ea, Eb. subst.
  split; by intros ->.
Qed.

Lemma check_all_filled_original_agrees_witness :
  check_all_filled_original anchor_text (duel PayToSpawnOneVsOne 1000 InProgress)
    = check_all_filled (duel PayToSpawnOneVsOne 1000 InProgress).
Proof.
  apply (proj1 (check_all_filled_original_agrees anchor_text
                  (duel PayToSpawnOneVsOne 1000 InProgress))).
  reflexivity.
Defined.

(** X24. [join_user] never overwrites a player: whatever the call and its
    outcome, every slot that held an identity before holds the same
    identity afterwards. *)
Theorem join_user_keeps_occupied_slots user team w t tm j p :
  team_of (session w) t = Some tm →
  players tm !! j = Some p → p ≠ Pubkey_default →
  ∃ tm', team_of (session (after (join_user user team) w)) t = Some tm' ∧
         players tm' !! j = Some p.
Proof.
  intros Ht Hj Hp.
  destruct (run (join_user user team) w) as [[]|f] eqn:Hrun.
  2: { rewrite join_user_failure_unchanged by (by rewrite Hrun). by eauto. }
  destruct (join_user_players _ _ _ Hrun) as (_ & _ & i & [H|H]);
    destruct H as (-> & Hi & Hnew & Hsame).
  - destruct t as [|[|?]]; simplify_eq/=; eexists; (split; [done|]).
    + rewrite Hnew. rewrite list_lookup_insert_ne; [done|].
      intros ->. congruence.
    + by rewrite Hsame.
  - destruct t as [|[|?]]; simplify_eq/=; eexists; (split; [done|]).
    + by rewrite Hsame.
    + rewrite Hnew. rewrite list_lookup_insert_ne; [done|].
      intros ->. congruence.
Qed.

Lemma join_user_keeps_occupied_slots_witness :
  ∃ tm', team_of (session (after (join_user 2 1) last_slot_open)) 0 = Some tm' ∧
         players tm' !! 0%nat = Some 1.
Proof.
  apply (join_user_keeps_occupied_slots 2 1 last_slot_open 0
           (team_a (session last_slot_open)) 0 1);
    [reflexivity | reflexivity | discriminate].
Defined.

(** ** The fixed pay-to-spawn distribution in every outcome *)

Lemma pay_spawn_loop_prefix g ra amount ps l :
  0 ≤ vault_balance l →
  ∃ n, (n ≤ length ps)%nat ∧
       (pay_spawn_loop g ra amount ps l).2
         = pay_all l (pay_spawn_transfers g ra (take n ps)) ∧
       0 ≤ vault_balance (pay_spawn_loop g ra amount ps l).2 ∧
       ((pay_spawn_loop g ra amount ps l).1 = Ok tt → n = length ps).
Proof.
  revert l. induction ps as [|p ps IH]; intros l Hv.
  { exists 0%nat. simpl. by repeat split. }
  assert (∀ l', 0 ≤ vault_balance l' →
            l' = pay_all l (earnings_transfer g ra p) →
            pay_spawn_loop g ra amount (p :: ps) l
              = pay_spawn_loop g ra amount ps l' →
            ∃ n, (n ≤ length (p :: ps))%nat ∧
              (pay_spawn_loop g ra amount (p :: ps) l).2
                = pay_all l (pay_spawn_transfers g ra (take n (p :: ps))) ∧
              0 ≤ vault_balance (pay_spawn_loop g ra amount (p :: ps) l).2 ∧
              ((pay_spawn_loop g ra amount (p :: ps) l).1 = Ok tt
               → n = length (p :: ps)))
    as Hnext.
  { intros l' Hv' Hl' Heq.
    destruct (IH l' Hv') as (n & Hn & Hbank & Hpos & Hok).
    exists (S n). rewrite Heq, firstn_cons, pay_spawn_transfers_cons, pay_all_app.
    rewrite <- Hl'. simpl. split; [lia|]. split; [done|]. split; [done|].
    intros H. by rewrite Hok. }
  assert (∀ f, pay_spawn_loop g ra amount (p :: ps) l = (Err f, l) →
            ∃ n, (n ≤ length (p :: ps))%nat ∧
              (pay_spawn_loop g ra amount (p :: ps) l).2
                = pay_all l (pay_spawn_transfers g ra (take n (p :: ps))) ∧
              0 ≤ vault_balance (pay_spawn_loop g ra amount (p :: ps) l).2 ∧
              ((pay_spawn_loop g ra amount (p :: ps) l).1 = Ok tt
               → n = length (p :: ps)))
    as Hstop.
  { intros f Heq. exists 0%nat. rewrite Heq. simpl.
    split; [lia|]. by repeat split. }
  rewrite pay_spawn_loop_cons in Hnext, Hstop.
  rewrite (pay_spawn_loop_cons g ra amount p ps l).
  destruct (get_kills_and_spawns g p) as [s|f] eqn:Es; [|by eapply Hstop].
  destruct (Z.eqb_spec s 0) as [->|Hs].
  { apply (Hnext l); [done| |done].
    by rewrite (earnings_transfer_zero g ra p 0 Es)
      by (rewrite Z.mul_0_l, Zdiv_0_l; lia). }
  destruct (s * session_bet g <=? u64_MAX); [|by eapply Hstop].
  destruct (player_token_account ra p) as [tok|f] eqn:Et; [|by eapply Hstop].
  simpl in *.
  destruct (Z.ltb_spec 0 ((s * session_bet g) `div` 10)) as [He|He].
  - destruct (_ <=? amount); [|by eapply Hstop].
    destruct (Z.ltb_spec (vault_balance l) ((s * session_bet g) `div` 10));
      [by eapply Hstop|].
    eapply Hnext; [|by rewrite (earnings_transfer_paid g ra p s tok Es Et He)|done].
    simpl. lia.
  - apply (Hnext l); [done| |done].
    by rewrite (earnings_transfer_zero g ra p s Es) by lia.
Qed.

(** X25. Whatever its outcome, the fixed [distribute_pay_spawn_earnings]
    has carried out exactly the transfers of a prefix of the players in
    slot order, each of the amount of the formula and to the token account
    listed for the player: the vault has lost the sum of these transfers
    and is still non-negative, every balance has gained what they send to
    it, the session is untouched, and after a success the prefix is the
    whole list of players. *)
Theorem distribute_pay_spawn_earnings_pays_prefix remaining_accounts w :
  0 ≤ vault_balance (bank w) →
  ∃ n, (n ≤ length (get_all_players (session w)))%nat ∧
       let paid := pay_spawn_transfers (session w) remaining_accounts
                     (take n (get_all_players (session w))) in
       let w' := after (distribute_pay_spawn_earnings remaining_accounts) w in
       bank w' = pay_all (bank w) paid ∧
       vault_balance (bank w') = vault_balance (bank w) - total_of paid ∧
       (∀ q, balance_of (bank w') q = balance_of (bank w) q + received paid q) ∧
       0 ≤ vault_balance (bank w') ∧
       session w' = session w ∧
       (run (distribute_pay_spawn_earnings remaining_accounts) w = Ok tt →
        n = length (get_all_players (session w)) ∧
        paid = pay_spawn_plan (session w) remaining_accounts).
Proof.
  intros Hv.
  destruct (pay_spawn_loop_prefix (session w) remaining_accounts
              (vault_balance (bank w)) (get_all_players (session w))
              (bank w) Hv) as (n & Hn & Hbank & Hpos & Hok).
  exists n. split; [done|]. intros paid w'. subst paid w'.
  settle_unfold.
  destruct (pay_spawn_loop _ _ _ _ _) as [r l']; simpl in *. subst l'.
  split; [done|]. split; [apply pay_all_vault|].
  split; [intros q; apply pay_all_balance|]. split; [done|]. split; [done|].
  intros Hr. specialize (Hok Hr). split; [done|].
  unfold pay_spawn_plan. by rewrite Hok, firstn_all.
Qed.

Lemma distribute_pay_spawn_earnings_pays_prefix_witness :
  ∃ n, (n ≤ length (get_all_players (session (pay_spawn_completed 1500))))%nat ∧
       vault_balance (bank (after (distribute_pay_spawn_earnings duel_accounts)
                              (pay_spawn_completed 1500)))
         = 1500 - total_of (pay_spawn_transfers (session (pay_spawn_completed 1500))
                              duel_accounts
                              (take n (get_all_players
                                         (session (pay_spawn_completed 1500))))).
Proof.
  destruct (distribute_pay_spawn_earnings_pays_prefix duel_accounts
              (pay_spawn_completed 1500))
    as (n & Hn & _ & Hv & _).
  - vm_compute. congruence.
  - exists n. split; [exact Hn | exact Hv].
Defined.
